(** * The dashboard client (static/js/main.js) as a shallow embedding

    The page is modelled as an explicit state [World]: a store of DOM nodes
    addressed by node identity, the ordered children of the [#app-list]
    container, the shared message box, the drag controller's [draggedItem]
    variable, and two logs (the [fetch] calls issued and the lines written
    with [console.error]).

    Every [await]/[then]/[catch] chain is run to completion in one go; the
    outcome of each network call is an explicit argument of the operation
    that issues it.  Interleavings of several chains are outside the model.

    JavaScript strings are modelled by [string] (code units below 256); the
    JSON bodies are typed as the endpoints document them, with [JsVal] for
    the scalar fields whose truthiness the code tests.  A JSON object used
    as a map is a finite map or an association list of its own keys; where
    the code reads it at a name that need not be a key ([apps[appName]]),
    the members it inherits from [Object.prototype] are read as well.

    The submit handler of the add form is left out: its request carries a
    body that the requests of this model do not have. *)

From Stdlib Require Import Ascii.
From stdpp Require Import gmap strings list pretty.

Local Open Scope Z_scope.
Set Warnings "-clear-no-such-hyp".

(** ** JavaScript scalars *)

Inductive JsVal :=
  | JUndefined
  | JNull
  | JBool (b : bool)
  | JNum (n : Z)
  | JStr (s : string).

(** [if (v)], [v || d]: the falsy scalars are undefined, null, false, 0 and
    the empty string. *)
Definition truthy (v : JsVal) : bool :=
  match v with
  | JUndefined | JNull => false
  | JBool b => b
  | JNum n => negb (n =? 0)%Z
  | JStr s => negb (String.eqb s "")
  end.

(** String conversion, as done by template literals, [new Error(v)] and the
    [textContent] setter (integers print in decimal). *)
Definition toString (v : JsVal) : string :=
  match v with
  | JUndefined => "undefined"
  | JNull => "null"
  | JBool true => "true"
  | JBool false => "false"
  | JNum n => pretty n
  | JStr s => s
  end.

(** ** sanitizeForId *)

(** The character class [a-zA-Z0-9-_] of the regular expression. *)
Definition id_char (c : ascii) : bool :=
  let n := N_of_ascii c in
  (((97 <=? n) && (n <=? 122)) || ((65 <=? n) && (n <=? 90))
   || ((48 <=? n) && (n <=? 57)) || (n =? 45) || (n =? 95))%N.

Definition sanitizeChar (c : ascii) : ascii :=
  if id_char c then c else "-"%char.

(** [str.replace(/[^a-zA-Z0-9-_]/g, '-')] *)
Fixpoint sanitizeForId (str : string) : string :=
  match str with
  | EmptyString => EmptyString
  | String c rest => String (sanitizeChar c) (sanitizeForId rest)
  end.

(** Two names differ only in characters outside the class: same length,
    and wherever they disagree both characters lie outside the class. *)
Fixpoint differ_only_outside (s t : string) : Prop :=
  match s, t with
  | EmptyString, EmptyString => True
  | String a s', String b t' =>
      (a = b ∨ (id_char a = false ∧ id_char b = false))
      ∧ differ_only_outside s' t'
  | _, _ => False
  end.

(** A character that [sanitizeChar] sends to the dash. *)
Definition dashed (c : ascii) : Prop := sanitizeChar c = "-"%char.

(** Same length, and at each position equal characters or two characters
    that both become a dash. *)
Fixpoint same_after_sanitize (s t : string) : Prop :=
  match s, t with
  | EmptyString, EmptyString => True
  | String a s', String b t' =>
      (a = b ∨ (dashed a ∧ dashed b)) ∧ same_after_sanitize s' t'
  | _, _ => False
  end.

(** Every character of the name is in the class. *)
Fixpoint all_id_chars (s : string) : bool :=
  match s with
  | EmptyString => true
  | String c rest => id_char c && all_id_chars rest
  end.

(** ** DOM nodes *)

(** One card as [createAppCard] emits it.  Only what scripts read or write
    is kept: identifiers, the data attribute, class lists, the status text
    and the link's [href] attribute and inline style.  The [onclick]
    attributes and the delete button never change and are left out. *)
Record Card := {
  card_id : string;                 (* id of the div *)
  card_classes : list string;       (* classList of the div *)
  app_name : string;                (* data-app-name *)
  link_href : string;               (* a.app-link, href attribute *)
  link_pointerEvents : string;      (* a.app-link, style.pointerEvents *)
  link_cursor : string;             (* a.app-link, style.cursor *)
  title : string;                   (* text of the h2 *)
  status_id : string;               (* id of the status span *)
  status_text : string;             (* textContent of the status span *)
  status_class : list string;       (* class tokens of the status span *)
  start_classes : list string;      (* classList of button.start-btn *)
  stop_classes : list string        (* classList of button.stop-btn *)
}.

Inductive DomNode :=
  | TextNode (s : string)
  | CardNode (c : Card)
  | ParagraphNode (s : string).

Global Instance JsVal_eq_dec : EqDecision JsVal.
Proof. solve_decision. Defined.
Global Instance Card_eq_dec : EqDecision Card.
Proof. solve_decision. Defined.
Global Instance DomNode_eq_dec : EqDecision DomNode.
Proof. solve_decision. Defined.

(** [classList.add] and [classList.remove] *)
Definition classList_add (c : string) (l : list string) : list string :=
  if decide (c ∈ l) then l else l ++ [c].

Definition classList_remove (c : string) (l : list string) : list string :=
  filter (λ x, x ≠ c) l.

(** ** Network *)

(** A parsed JSON body: the two fields [apiFetch] itself reads, and the
    rest, typed per endpoint. *)
Record Body (P : Type) := {
  error : JsVal;
  message : JsVal;
  payload : P
}.
Arguments error {P} _.
Arguments message {P} _.
Arguments payload {P} _.

(** What one [fetch] followed by [response.json()] can come to. *)
Inductive Outcome (P : Type) :=
  | NetworkFailure (msg : string)          (* fetch rejects *)
  | NotJson (ok : bool) (msg : string)     (* response.json() rejects *)
  | Json (ok : bool) (data : Body P).      (* ok is response.ok *)
Arguments NetworkFailure {P} _.
Arguments NotJson {P} _ _.
Arguments Json {P} _ _.

(** The value travelling on the rejection channel of a promise. *)
Record JsError := { err_message : string }.

Record AppInfo := { path : string; info_port : JsVal }.

(** Body of GET /apps; a missing field is [None]. *)
Record AppsData := {
  apps : option (gmap string AppInfo);
  order : option (list string)
}.

Record AppStatus := { running : JsVal; port : JsVal }.

(** Body of GET /status: the object's own keys in enumeration order with
    their values. *)
Definition StatusData := list (string * AppStatus).

Inductive ReqOptions :=
  | NoOptions                                (* {} *)
  | Post                                     (* { method: 'POST' } *)
  | PostOrder (newOrder : list string).      (* JSON body { order } *)

Record Request := { endpoint : string; options : ReqOptions }.

(** ** Page state *)

Record MessageBox := { textContent : string; display : string }.

Record World := {
  heap : gmap nat DomNode;       (* every node ever created, by identity *)
  next_node : nat;               (* identity of the next node created;
                                    identities are never used again *)
  app_list : list nat;           (* children of #app-list, in order *)
  message_box : MessageBox;      (* #message-box *)
  draggedItem : option nat;      (* the variable of initDragAndDrop *)
  console : list string;         (* console.error, oldest first *)
  requests : list Request;       (* fetch calls, oldest first *)
  SECRET_PATH : string;          (* document.body.dataset.secretPath *)
  hostname : string              (* window.location.hostname *)
}.

Definition set_heap (h : gmap nat DomNode) (w : World) : World :=
  {| heap := h; next_node := next_node w; app_list := app_list w;
     message_box := message_box w; draggedItem := draggedItem w;
     console := console w; requests := requests w;
     SECRET_PATH := SECRET_PATH w; hostname := hostname w |}.

Definition set_children (h : gmap nat DomNode) (nxt : nat) (l : list nat)
    (w : World) : World :=
  {| heap := h; next_node := nxt; app_list := l;
     message_box := message_box w; draggedItem := draggedItem w;
     console := console w; requests := requests w;
     SECRET_PATH := SECRET_PATH w; hostname := hostname w |}.

Definition set_app_list (l : list nat) (w : World) : World :=
  set_children (heap w) (next_node w) l w.

Definition set_message_box (mb : MessageBox) (w : World) : World :=
  {| heap := heap w; next_node := next_node w; app_list := app_list w;
     message_box := mb; draggedItem := draggedItem w;
     console := console w; requests := requests w;
     SECRET_PATH := SECRET_PATH w; hostname := hostname w |}.

Definition set_draggedItem (d : option nat) (w : World) : World :=
  {| heap := heap w; next_node := next_node w; app_list := app_list w;
     message_box := message_box w; draggedItem := d;
     console := console w; requests := requests w;
     SECRET_PATH := SECRET_PATH w; hostname := hostname w |}.

Definition console_error (line : string) (w : World) : World :=
  {| heap := heap w; next_node := next_node w; app_list := app_list w;
     message_box := message_box w; draggedItem := draggedItem w;
     console := console w ++ [line]; requests := requests w;
     SECRET_PATH := SECRET_PATH w; hostname := hostname w |}.

Definition fetch (r : Request) (w : World) : World :=
  {| heap := heap w; next_node := next_node w; app_list := app_list w;
     message_box := message_box w; draggedItem := draggedItem w;
     console := console w; requests := requests w ++ [r];
     SECRET_PATH := SECRET_PATH w; hostname := hostname w |}.

(** ** apiFetch *)

Definition show_message (text : string) (w : World) : World :=
  set_message_box {| textContent := text; display := "block" |} w.

Definition hide_message (w : World) : World :=
  set_message_box
    {| textContent := textContent (message_box w); display := "none" |} w.

(** The [catch] block: show the error, throw it again. *)
Definition apiFetch_catch {P : Type} (e : JsError) (w : World)
    : World * (JsError + Body P) :=
  (show_message ("Error: " +:+ err_message e) w, inl e).

(** The result is [inl e] when the promise rejects with [e] and [inr data]
    when it resolves. *)
Definition apiFetch {P : Type} (endpoint : string) (options : ReqOptions)
    (out : Outcome P) (w : World) : World * (JsError + Body P) :=
  let w0 := fetch {| endpoint := endpoint; options := options |}
                  (hide_message w) in
  match out with
  | NetworkFailure msg => apiFetch_catch {| err_message := msg |} w0
  | NotJson _ msg => apiFetch_catch {| err_message := msg |} w0
  | Json ok data =>
      if negb ok then
        apiFetch_catch
          {| err_message := if truthy (error data) then toString (error data)
                            else "An unknown error occurred." |} w0
      else
        (if truthy (message data)
         then show_message (toString (message data)) w0 else w0,
         inr data)
  end.

(** The three failure conditions of a call. *)
Definition failed {P : Type} (out : Outcome P) : bool :=
  match out with
  | NetworkFailure _ => true
  | NotJson _ _ => true
  | Json ok _ => negb ok
  end.

(** ** Rendering *)

Definition newline : string := String (ascii_of_nat 10) "".

Definition placeholder : string :=
  "No applications configured. Add one above.".

(** The card element of the template, as parsed: the name is read back
    from the attribute [data-app-name] and from the title, which holds for
    the names that are a [plain_name] (below). *)
Definition new_card (appName : string) : Card :=
  let sanitizedAppName := sanitizeForId appName in
  {| card_id := "card-" +:+ sanitizedAppName;
     card_classes := ["card"];
     app_name := appName;
     link_href := "#";
     link_pointerEvents := "";
     link_cursor := "";
     title := appName;
     status_id := "status-" +:+ sanitizedAppName;
     status_text := "Unknown";
     status_class := ["status"; "status-unknown"];
     start_classes := ["icon-btn"; "start-btn"];
     stop_classes := ["icon-btn"; "stop-btn"] |}.

(** The name goes into the markup as it is, without escaping.  These are
    the characters that the HTML parser does not read back as themselves
    from a double-quoted attribute value or from the text of an element:
    NUL (replaced or dropped), carriage return (read as a line feed), the
    double quote (ends the attribute value), the ampersand (starts a
    character reference) and the less-than sign (opens a tag). *)
Definition markup_char (c : ascii) : bool :=
  let n := N_of_ascii c in
  ((n =? 0) || (n =? 13) || (n =? 34) || (n =? 38) || (n =? 60))%N.

(** A name without such characters: the attribute [data-app-name] and the
    text of the title read back as the name itself. *)
Fixpoint plain_name (s : string) : bool :=
  match s with
  | EmptyString => true
  | String c rest => negb (markup_char c) && plain_name rest
  end.

(** The members that every object inherits from [Object.prototype] (the
    page defines no other): each holds a function, [__proto__] the
    prototype itself. *)
Definition Object_prototype : list string :=
  ["constructor"; "__defineGetter__"; "__defineSetter__"; "hasOwnProperty";
   "__lookupGetter__"; "__lookupSetter__"; "isPrototypeOf";
   "propertyIsEnumerable"; "toString"; "valueOf"; "__proto__";
   "toLocaleString"].

(** The value of [apps[appName]]. *)
Inductive AppsEntry :=
  | NoEntry                          (* undefined *)
  | OwnEntry (appInfo : AppInfo)     (* the value under a key of apps *)
  | InheritedEntry.                  (* a member of Object.prototype *)

(** [apps[appName]]: the object's own key first, then its prototype. *)
Definition apps_get (apps : gmap string AppInfo) (appName : string)
    : AppsEntry :=
  match apps !! appName with
  | Some appInfo => OwnEntry appInfo
  | None =>
      if decide (appName ∈ Object_prototype) then InheritedEntry else NoEntry
  end.

(** [if (appInfo)]: objects and functions are truthy, undefined is not. *)
Definition entry_truthy (appInfo : AppsEntry) : bool :=
  match appInfo with
  | NoEntry => false
  | OwnEntry _ | InheritedEntry => true
  end.

(** The names at which [apps[appName]] is truthy. *)
Definition has_property (apps : gmap string AppInfo) (appName : string)
    : Prop :=
  is_Some (apps !! appName) ∨ appName ∈ Object_prototype.

Global Instance has_property_dec apps appName :
  Decision (has_property apps appName).
Proof. unfold has_property. apply _. Defined.

(** The markup of [createAppCard] as the nodes it parses to: the card
    between the two runs of white space that open and close the template.
    [appInfo] is not used by the template.  The card is the one that the
    parser builds for a name that is a [plain_name]; for other names the
    markup reads differently, and the properties that tell what is
    rendered are stated for plain names. *)
Definition createAppCard (appName : string) (appInfo : AppsEntry)
    : list DomNode :=
  [ TextNode (newline +:+ "        ");
    CardNode (new_card appName);
    TextNode (newline +:+ "    ") ].

(** The parser gives one text node for adjacent runs of text. *)
Fixpoint merge_text (ks : list DomNode) : list DomNode :=
  match ks with
  | [] => []
  | TextNode s :: rest =>
      match merge_text rest with
      | TextNode s' :: rest' => TextNode (s +:+ s') :: rest'
      | rest' => TextNode s :: rest'
      end
  | k :: rest => k :: merge_text rest
  end.

(** Store the nodes [ks] under the identities [n], [n+1], ... *)
Fixpoint alloc (n : nat) (ks : list DomNode) (h : gmap nat DomNode)
    : gmap nat DomNode :=
  match ks with
  | [] => h
  | k :: rest => alloc (S n) rest (<[n := k]> h)
  end.

(** Reading [appList.innerHTML]: the children, serialized. *)
Definition get_innerHTML (w : World) : list DomNode :=
  omap (λ n, heap w !! n) (app_list w).

(** Assigning [appList.innerHTML]: the old children are dropped and every
    node of the new markup is created afresh. *)
Definition set_innerHTML (ks : list DomNode) (w : World) : World :=
  set_children (alloc (next_node w) ks (heap w))
               (next_node w + length ks)%nat
               (seq (next_node w) (length ks)) w.

(** [appList.innerHTML += html] *)
Definition append_innerHTML (html : list DomNode) (w : World) : World :=
  set_innerHTML (merge_text (get_innerHTML w ++ html)) w.

(** The callback of [order.forEach]. *)
Definition render_step (apps : gmap string AppInfo) (w : World)
    (appName : string) : World :=
  let appInfo := apps_get apps appName in
  if entry_truthy appInfo then
    append_innerHTML (createAppCard appName appInfo) w
  else w.

(** Lines 73 to 88 of [updateAppList]: the rebuild of the list. *)
Definition renderAppList (data : AppsData) (w : World) : World :=
  let w0 := set_innerHTML [] w in
  let apps : gmap string AppInfo := default ∅ (apps data) in
  let order := default [] (order data) in
  if decide (length order = 0%nat) then
    set_innerHTML [ParagraphNode placeholder] w0
  else
    foldl (render_step apps) w0 order.

(** ** Status polling *)

(** [document.getElementById] for an identifier of the form [card-...]:
    the first card in document order that carries it, with its identity. *)
Fixpoint find_card (h : gmap nat DomNode) (id : string) (l : list nat)
    : option (nat * Card) :=
  match l with
  | [] => None
  | n :: rest =>
      match h !! n with
      | Some (CardNode c) =>
          if decide (card_id c = id) then Some (n, c) else find_card h id rest
      | _ => find_card h id rest
      end
  end.

Definition getElementById (id : string) (w : World) : option (nat * Card) :=
  find_card (heap w) id (app_list w).

(** [data[appName]] *)
Fixpoint data_get (appName : string) (data : StatusData) : option AppStatus :=
  match data with
  | [] => None
  | (k, v) :: rest =>
      if decide (k = appName) then Some v else data_get appName rest
  end.

(** The two branches of the callback, on the card's parts. *)
Definition applyStatus (host : string) (appData : AppStatus) (c : Card)
    : Card :=
  if truthy (running appData) then
    {| card_id := card_id c; card_classes := card_classes c;
       app_name := app_name c;
       link_href := if truthy (port appData)
                    then "http://" +:+ host +:+ ":" +:+ toString (port appData)
                    else link_href c;
       link_pointerEvents := if truthy (port appData) then "auto" else "none";
       link_cursor := if truthy (port appData) then "pointer" else "default";
       title := title c;
       status_id := status_id c;
       status_text := "Run";
       status_class := ["status"; "status-running"];
       start_classes := classList_add "disabled" (start_classes c);
       stop_classes := classList_add "active" (stop_classes c) |}
  else
    {| card_id := card_id c; card_classes := card_classes c;
       app_name := app_name c;
       link_href := "#";
       link_pointerEvents := "none";
       link_cursor := "default";
       title := title c;
       status_id := status_id c;
       status_text := "Stop";
       status_class := ["status"; "status-stopped"];
       start_classes := classList_remove "disabled" (start_classes c);
       stop_classes := classList_remove "active" (stop_classes c) |}.

(** The callback of [Object.keys(data).forEach].  [None] is a TypeError:
    [data[appName]] undefined or no element [#status-...] in the card; it
    is raised before anything is written. *)
Definition statusEntry (data : StatusData) (appName : string) (w : World)
    : option World :=
  let sanitizedAppName := sanitizeForId appName in
  match getElementById ("card-" +:+ sanitizedAppName) w with
  | None => Some w
  | Some (n, card) =>
      match data_get appName data with
      | None => None
      | Some appData =>
          if decide (status_id card = "status-" +:+ sanitizedAppName) then
            Some (set_heap
                    (<[n := CardNode (applyStatus (hostname w) appData card)]>
                       (heap w)) w)
          else None
      end
  end.

(** [forEach] until the end or the first exception; the flag tells which. *)
Fixpoint forEach_status (data : StatusData) (keys : list string) (w : World)
    : World * bool :=
  match keys with
  | [] => (w, true)
  | appName :: rest =>
      match statusEntry data appName w with
      | Some w' => forEach_status data rest w'
      | None => (w, false)
      end
  end.

(** [el.textContent = 'Unknown'; el.className = 'status status-unknown'] *)
Definition set_unknown (c : Card) : Card :=
  {| card_id := card_id c; card_classes := card_classes c;
     app_name := app_name c; link_href := link_href c;
     link_pointerEvents := link_pointerEvents c;
     link_cursor := link_cursor c; title := title c;
     status_id := status_id c;
     status_text := "Unknown";
     status_class := ["status"; "status-unknown"];
     start_classes := start_classes c;
     stop_classes := stop_classes c |}.

(** The callback of [querySelectorAll('.status').forEach], on a child of
    the list: it reaches the status span when that carries the class. *)
Definition mark_unknown (k : DomNode) : DomNode :=
  match k with
  | CardNode c =>
      if decide ("status" ∈ status_class c) then CardNode (set_unknown c)
      else k
  | _ => k
  end.

(** The [catch] block of [updateStatus]. *)
Definition updateStatus_catch (e : JsError) (w : World) : World :=
  let w0 := console_error ("Failed to fetch status: " +:+ err_message e) w in
  set_heap (foldr (alter mark_unknown) (heap w0) (app_list w0)) w0.

Definition TypeError : JsError := {| err_message := "TypeError" |}.

Definition updateStatus (statusOut : Outcome StatusData) (w : World)
    : World :=
  match apiFetch "/status" NoOptions statusOut w with
  | (w0, inr data) =>
      let data := payload data in
      match forEach_status data (fst <$> data) w0 with
      | (w1, true) => w1
      | (w1, false) => updateStatus_catch TypeError w1
      end
  | (w0, inl e) => updateStatus_catch e w0
  end.

Definition updateAppList (appsOut : Outcome AppsData)
    (statusOut : Outcome StatusData) (w : World) : World :=
  match apiFetch "/apps" NoOptions appsOut w with
  | (w0, inr data) => updateStatus statusOut (renderAppList (payload data) w0)
  | (w0, inl e) =>
      console_error ("Failed to update app list: " +:+ err_message e) w0
  end.

(** ** App control *)

Definition controlApp (appName action : string) (out : Outcome unit)
    (statusOut : Outcome StatusData) (w : World) : World :=
  match apiFetch ("/" +:+ SECRET_PATH w +:+ "/" +:+ action +:+ "/" +:+ appName)
                 Post out w with
  | (w0, inr _) => updateStatus statusOut w0
  | (w0, inl e) =>
      console_error ("Failed to " +:+ action +:+ " " +:+ appName) w0
  end.

(** [confirmed] is the answer to the [confirm] dialog. *)
Definition deleteApp (confirmed : bool) (appName : string)
    (out : Outcome unit) (appsOut : Outcome AppsData)
    (statusOut : Outcome StatusData) (w : World) : World :=
  if negb confirmed then w
  else
    match apiFetch ("/" +:+ SECRET_PATH w +:+ "/delete/" +:+ appName)
                   Post out w with
    | (w0, inr _) => updateAppList appsOut statusOut w0
    | (w0, inl e) => console_error ("Failed to delete " +:+ appName) w0
    end.

(** ** Drag and drop *)

(** [node.nextSibling] among the children [l]; null for a last child and
    for a node that is not in the list. *)
Fixpoint nextSibling (n : nat) (l : list nat) : option nat :=
  match l with
  | [] => None
  | m :: rest => if decide (m = n) then head rest else nextSibling n rest
  end.

Definition remove_child (n : nat) (l : list nat) : list nat :=
  filter (λ m, m ≠ n) l.

(** Put [n] in front of the child [r]. *)
Fixpoint insert_at (n r : nat) (l : list nat) : list nat :=
  match l with
  | [] => []
  | m :: rest =>
      if decide (m = r) then n :: m :: rest else m :: insert_at n r rest
  end.

(** [parent.insertBefore(node, child)] on the children [l] of the parent.
    A non-null [child] that is not a child of the parent is a
    NotFoundError ([None]); when [child] is [node] itself the reference
    becomes the node's next sibling; the node is taken out of where it is
    and put before the reference, or last when the reference is null. *)
Definition insertBefore (node : nat) (child : option nat) (l : list nat)
    : option (list nat) :=
  match child with
  | None => Some (remove_child node l ++ [node])
  | Some c =>
      if decide (c ∈ l) then
        let reference :=
          if decide (c = node) then nextSibling node l else Some c in
        Some (match reference with
              | Some r => insert_at node r (remove_child node l)
              | None => (remove_child node l ++ [node])
              end)
      else None
  end.

Definition on_card (f : Card → Card) (k : DomNode) : DomNode :=
  match k with
  | CardNode c => CardNode (f c)
  | _ => k
  end.

Definition set_card_classes (cl : list string) (c : Card) : Card :=
  {| card_id := card_id c; card_classes := cl;
     app_name := app_name c; link_href := link_href c;
     link_pointerEvents := link_pointerEvents c;
     link_cursor := link_cursor c; title := title c;
     status_id := status_id c; status_text := status_text c;
     status_class := status_class c;
     start_classes := start_classes c; stop_classes := stop_classes c |}.

Definition card_class_add (cls : string) (c : Card) : Card :=
  set_card_classes (classList_add cls (card_classes c)) c.

Definition card_class_remove (cls : string) (c : Card) : Card :=
  set_card_classes (classList_remove cls (card_classes c)) c.

(** [appList.querySelectorAll('.drag-over').forEach(el =>
    el.classList.remove('drag-over'))] *)
Definition clear_drag_over (w : World) : World :=
  set_heap
    (foldr (alter (on_card (λ c,
              if decide ("drag-over" ∈ card_classes c)
              then card_class_remove "drag-over" c else c)))
           (heap w) (app_list w)) w.

(** In the handlers below [targetCard] is the result of
    [e.target.closest('.card')]: a card of the list, or null. *)

Definition dragstart (targetCard : option nat) (w : World) : World :=
  match targetCard with
  | None => w
  | Some t => set_draggedItem (Some t) w
  end.

(** The callback that [dragstart] defers; [None] is the TypeError of
    reading [classList] of null. *)
Definition dragstart_deferred (w : World) : option World :=
  match draggedItem w with
  | None => None
  | Some d =>
      Some (set_heap (alter (on_card (card_class_add "dragging")) d (heap w)) w)
  end.

Definition dragend (w : World) : World :=
  let w0 :=
    match draggedItem w with
    | Some d =>
        set_heap (alter (on_card (card_class_remove "dragging")) d (heap w)) w
    | None => w
    end in
  set_draggedItem None (clear_drag_over w0).

Definition dragover (targetCard : option nat) (w : World) : World :=
  let w0 := clear_drag_over w in
  match targetCard with
  | Some t =>
      if decide (Some t ≠ draggedItem w0) then
        set_heap (alter (on_card (card_class_add "drag-over")) t (heap w0)) w0
      else w0
  | None => w0
  end.

Definition dragleave (targetCard : option nat) (w : World) : World :=
  match targetCard with
  | Some t =>
      set_heap (alter (on_card (card_class_remove "drag-over")) t (heap w)) w
  | None => w
  end.

(** [[...parent.querySelectorAll('.card')].map(card =>
    card.dataset.appName)] *)
Definition card_order (w : World) : list string :=
  omap (λ n, match heap w !! n with
             | Some (CardNode c) =>
                 if decide ("card" ∈ card_classes c) then Some (app_name c)
                 else None
             | _ => None
             end) (app_list w).

(** The [drop] handler up to the call of [apiFetch]: the state it leaves
    and, when it goes on to save, the order it sends.  An exception of
    [insertBefore] ends the handler where it stands. *)
Definition drop_sync (targetCard : option nat) (w : World)
    : World * option (list string) :=
  match draggedItem w with
  | None => (w, None)
  | Some dragged =>
      let w0 := clear_drag_over w in
      match targetCard with
      | Some dropTarget =>
          if decide (dropTarget ≠ dragged) then
            let draggedNext := nextSibling dragged (app_list w0) in
            let dropTargetNext := nextSibling dropTarget (app_list w0) in
            match insertBefore dragged dropTargetNext (app_list w0) with
            | None => (w0, None)
            | Some l1 =>
                match insertBefore dropTarget draggedNext l1 with
                | None => (set_app_list l1 w0, None)
                | Some l2 =>
                    let w1 := set_app_list l2 w0 in
                    (w1, Some (card_order w1))
                end
            end
          else (w0, None)
      | None => (w0, None)
      end
  end.

Definition drop (targetCard : option nat) (saveOut : Outcome unit)
    (appsOut : Outcome AppsData) (statusOut : Outcome StatusData)
    (w : World) : World :=
  match drop_sync targetCard w with
  | (w0, None) => w0
  | (w0, Some newOrder) =>
      match apiFetch ("/" +:+ SECRET_PATH w0 +:+ "/save-order")
                     (PostOrder newOrder) saveOut w0 with
      | (w1, inr _) => w1
      | (w1, inl e) =>
          updateAppList appsOut statusOut
            (console_error ("Failed to save new order: " +:+ err_message e) w1)
      end
  end.

(** The call that the drop handler makes to save [newOrder]. *)
Definition save_order_request (w : World) (newOrder : list string) : Request :=
  {| endpoint := "/" +:+ SECRET_PATH w +:+ "/save-order";
     options := PostOrder newOrder |}.

(** ** Reading the page *)

Definition card_at (w : World) (n : nat) : option Card :=
  match heap w !! n with
  | Some (CardNode c) => Some c
  | _ => None
  end.

(** The cards among some nodes. *)
Definition cards_of (ks : list DomNode) : list Card :=
  omap (λ k, match k with CardNode c => Some c | _ => None end) ks.

(** The cards of the list, in document order. *)
Definition rendered_cards (w : World) : list Card :=
  omap (card_at w) (app_list w).

Definition rendered_names (w : World) : list string :=
  app_name <$> rendered_cards w.

(** Exchange of two identities. *)
Definition transpose (x y n : nat) : nat :=
  if decide (n = x) then y else if decide (n = y) then x else n.

(** What no script ever writes: the kind of a node, a text, and of a card
    its two identifiers, its data attribute and its title.  [skeleton]
    keeps these and blanks the rest. *)
Definition skeleton (k : DomNode) : DomNode :=
  match k with
  | CardNode c =>
      CardNode
        {| card_id := card_id c; card_classes := [];
           app_name := app_name c; link_href := "";
           link_pointerEvents := ""; link_cursor := ""; title := title c;
           status_id := status_id c; status_text := ""; status_class := [];
           start_classes := []; stop_classes := [] |}
  | _ => k
  end.

(** The identifier that the status poller looks up for a key. *)
Definition card_id_of (appName : string) : string :=
  "card-" +:+ sanitizeForId appName.

(** Two states of the page with the same children, the same skeleton of
    every node, and the same values of what scripts only read. *)
Definition same_frame (w w' : World) : Prop :=
  app_list w' = app_list w
  ∧ next_node w' = next_node w
  ∧ draggedItem w' = draggedItem w
  ∧ SECRET_PATH w' = SECRET_PATH w
  ∧ hostname w' = hostname w
  ∧ ∀ m, skeleton <$> heap w' !! m = skeleton <$> heap w !! m.

(** ** Invariant of the rendered list *)

(** What holds of every card made by [createAppCard], whatever the status
    poller and the drag handlers did to it since. *)
Definition wf_card (c : Card) : Prop :=
  card_id c = "card-" +:+ sanitizeForId (app_name c)
  ∧ status_id c = "status-" +:+ sanitizeForId (app_name c)
  ∧ "status" ∈ status_class c
  ∧ "card" ∈ card_classes c.

Definition wf_node (k : DomNode) : Prop :=
  match k with
  | CardNode c => wf_card c
  | _ => True
  end.

(** The children are distinct nodes of the store, and the cards among them
    are well formed. *)
Definition wf_dom (w : World) : Prop :=
  NoDup (app_list w)
  ∧ Forall (λ n, from_option wf_node False (heap w !! n)) (app_list w).

Global Instance wf_card_dec c : Decision (wf_card c).
Proof. unfold wf_card. apply _. Defined.
Global Instance wf_node_dec k : Decision (wf_node k).
Proof. destruct k; simpl; apply _. Defined.
Global Instance wf_child_dec (h : gmap nat DomNode) n :
  Decision (from_option wf_node False (h !! n)).
Proof. destruct (h !! n); simpl; apply _. Defined.
Global Instance wf_dom_dec w : Decision (wf_dom w).
Proof. unfold wf_dom. apply _. Defined.

(** The state of a card's link and status indicator that the status
    response prescribes for an app, given the card before the poll. *)
Definition clickable (c : Card) : Prop :=
  link_pointerEvents c = "auto" ∧ link_cursor c = "pointer".

Definition non_interactive (c : Card) : Prop :=
  link_pointerEvents c = "none" ∧ link_cursor c = "default".

Definition status_unknown (c : Card) : Prop :=
  status_text c = "Unknown" ∧ status_class c = ["status"; "status-unknown"].

(** The page before anything is rendered. *)
Definition initial_world (secret host : string) : World :=
  {| heap := ∅; next_node := 0; app_list := [];
     message_box := {| textContent := ""; display := "none" |};
     draggedItem := None; console := []; requests := [];
     SECRET_PATH := secret; hostname := host |}.

(** ** Polling and page load *)

(** The ticks of [setInterval(updateStatus, 5000)], one outcome of the
    status call per tick, each poll run to its end before the next. *)
Definition poll (outs : list (Outcome StatusData)) (w : World) : World :=
  foldl (λ w out, updateStatus out w) w outs.

(** The [DOMContentLoaded] handler, the theme apart: [initDragAndDrop]
    starts with no dragged item, then the list is loaded. *)
Definition DOMContentLoaded (appsOut : Outcome AppsData)
    (statusOut : Outcome StatusData) (w : World) : World :=
  updateAppList appsOut statusOut (set_draggedItem None w).

(** What the two branches of the status callback leave on a card: one
    that reads "Run" has its start button disabled and its stop button
    active; one that reads "Stop" has neither class on the buttons, and an
    inert link to "#". *)
Definition buttons_match_status (c : Card) : Prop :=
  (status_text c = "Run" →
     "disabled" ∈ start_classes c ∧ "active" ∈ stop_classes c)
  ∧ (status_text c = "Stop" →
     ("disabled" ∉ start_classes c) ∧ ("active" ∉ stop_classes c)
     ∧ link_href c = "#" ∧ non_interactive c).

(** Every card of the list satisfies [Q]. *)
Definition all_cards (Q : Card → Prop) (w : World) : Prop :=
  ∀ n c, n ∈ app_list w → card_at w n = Some c → Q c.

(** A card carries the drop-target flag. *)
Definition drag_over (c : Card) : Prop := "drag-over" ∈ card_classes c.

(** ** Theme switching *)

(** The parts of the page that the theme code reads and writes. *)
Record ThemeState := {
  body_classes : list string;      (* document.body.classList *)
  label_text : string;             (* themeLabel.textContent *)
  toggle_checked : bool;           (* themeToggle.checked *)
  stored_theme : option string     (* localStorage.getItem('theme') *)
}.

(** The two label texts, as the bytes of the literals in the source. *)
Definition dark_label : string := "â˜€ï¸".
Definition light_label : string := "ðŸŒ™".

Definition applyTheme (isDark : bool) (t : ThemeState) : ThemeState :=
  if isDark then
    {| body_classes := classList_add "dark-mode" (body_classes t);
       label_text := dark_label;
       toggle_checked := true;
       stored_theme := stored_theme t |}
  else
    {| body_classes := classList_remove "dark-mode" (body_classes t);
       label_text := light_label;
       toggle_checked := false;
       stored_theme := stored_theme t |}.

Definition toggleTheme (t : ThemeState) : ThemeState :=
  let isDark := toggle_checked t in
  let t0 := applyTheme isDark t in
  {| body_classes := body_classes t0; label_text := label_text t0;
     toggle_checked := toggle_checked t0;
     stored_theme := Some (if isDark then "dark" else "light") |}.

(** A click on the switch: the browser flips the box, then the [change]
    listener runs. *)
Definition theme_change (t : ThemeState) : ThemeState :=
  toggleTheme
    {| body_classes := body_classes t; label_text := label_text t;
       toggle_checked := negb (toggle_checked t);
       stored_theme := stored_theme t |}.

(** The theme part of the [DOMContentLoaded] handler.  [matchMedia] is
    the answer of [window.matchMedia('(prefers-color-scheme: dark)')], or
    [None] where the browser has no [matchMedia]. *)
Definition loadTheme (matchMedia : option bool) (t : ThemeState)
    : ThemeState :=
  let savedTheme := stored_theme t in
  match savedTheme with
  | Some saved =>
      if truthy (JStr saved) then applyTheme (String.eqb saved "dark") t
      else applyTheme (default false matchMedia) t
  | None => applyTheme (default false matchMedia) t
  end.

Definition dark (t : ThemeState) : Prop := "dark-mode" ∈ body_classes t.

(** ** Example pages *)

(** A 2xx response with a JSON body that carries neither [error] nor
    [message]. *)
Definition json_ok {P : Type} (p : P) : Outcome P :=
  Json true {| error := JUndefined; message := JUndefined; payload := p |}.

Definition app_at (p : string) : AppInfo :=
  {| path := p; info_port := JUndefined |}.

(** Two configured apps whose names differ in one punctuation character. *)
Definition colliding_apps : AppsData :=
  {| apps := Some (<["a b" := app_at "ab1.bat"]>
                     (<["a.b" := app_at "ab2.bat"]> ∅));
     order := Some ["a b"; "a.b"] |}.

(** The page after loading these two apps, the first status poll finding
    nothing to report. *)
Definition colliding_page : World :=
  updateAppList (json_ok colliding_apps) (json_ok [])
                (initial_world "secret" "localhost").

Definition single_app : AppsData :=
  {| apps := Some (<["a b" := app_at "ab1.bat"]> ∅);
     order := Some ["a b"] |}.

Definition single_page : World :=
  updateAppList (json_ok single_app) (json_ok [])
                (initial_world "secret" "localhost").

Definition three_apps : AppsData :=
  {| apps := Some (<["alpha" := app_at "a.bat"]>
                     (<["beta" := app_at "b.bat"]>
                        (<["gamma" := app_at "c.bat"]> ∅)));
     order := Some ["alpha"; "beta"; "gamma"] |}.

Definition three_page : World :=
  updateAppList (json_ok three_apps) (json_ok [])
                (initial_world "secret" "localhost").

(** The three apps with "beta" reported running on port 8080. *)
Definition running_page : World :=
  updateStatus
    (json_ok [("beta", {| running := JBool true; port := JNum 8080 |})])
    three_page.

(** The same page while the card of "alpha" (node 9) is dragged. *)
Definition dragging_page : World :=
  dragstart (Some 9%nat) running_page.

(** The list reloaded while the card of "alpha" (node 9) is being dragged:
    the dragged item is a node of the list that was replaced. *)
Definition reloaded_while_dragging : World :=
  updateAppList (json_ok three_apps) (json_ok []) dragging_page.


(** The three apps, with an [order] that leaves one of them out and names
    an app that is not configured. *)
Definition stale_order_apps : AppsData :=
  {| apps := apps three_apps; order := Some ["gamma"; "ghost"; "alpha"] |}.

(** A status response for the two colliding names: both run, the first
    with the port 0, the second on port 8080. *)
Definition colliding_ports : StatusData :=
  [("a b", {| running := JBool true; port := JNum 0 |});
   ("a.b", {| running := JBool true; port := JNum 8080 |})].

(** * Properties *)

(** ** sanitizeForId *)

Lemma sanitizeChar_eq_iff a b :
  sanitizeChar a = sanitizeChar b ↔ a = b ∨ (dashed a ∧ dashed b).
Proof.
  unfold dashed, sanitizeChar.
  destruct (id_char a) eqn:Ha, (id_char b) eqn:Hb; split;
    try (intros [-> | [? ?]]); try intros ?; subst; auto; congruence.
Qed.

Lemma sanitizeForId_same s :
  ∀ t, sanitizeForId s = sanitizeForId t ↔ same_after_sanitize s t.
Proof.
  induction s as [|a s IH]; intros [|b t]; simpl; try (split; [discriminate | tauto]).
  - tauto.
  - rewrite <- IH, <- sanitizeChar_eq_iff. split.
    + intros [= ? ?]; auto.
    + intros [-> ->]; reflexivity.
Qed.

Lemma differ_only_outside_same s :
  ∀ t, differ_only_outside s t → same_after_sanitize s t.
Proof.
  induction s as [|a s IH]; intros [|b t]; simpl; try tauto.
  intros [H Hrest]. split; [|auto].
  destruct H as [-> | [Ha Hb]]; [by left | right].
  unfold dashed, sanitizeChar. by rewrite Ha, Hb.
Qed.

Lemma sanitizeForId_id_chars s :
  all_id_chars s = true → sanitizeForId s = s.
Proof.
  induction s as [|a s IH]; simpl; [done|].
  intros [Ha Hs]%andb_true_iff. unfold sanitizeChar. rewrite Ha.
  by rewrite IH.
Qed.

Lemma sanitizeForId_length s :
  String.length (sanitizeForId s) = String.length s.
Proof. induction s; simpl; congruence. Qed.

Lemma sanitizeForId_idempotent s :
  sanitizeForId (sanitizeForId s) = sanitizeForId s.
Proof.
  apply sanitizeForId_id_chars.
  induction s as [|a s IH]; simpl; [done|].
  rewrite IH, andb_true_r. unfold sanitizeChar.
  by destruct (id_char a) eqn:Ha.
Qed.

(** C5, as stated, fails: the two distinct names "a b" and "a.b" differ
    only in one character outside the class (a space against a dot), and
    both get the identifier "a-b". *)
Lemma sanitizeForId_collision :
  "a b" ≠ "a.b"
  ∧ differ_only_outside "a b" "a.b"
  ∧ sanitizeForId "a b" = sanitizeForId "a.b".
Proof.
  split; [discriminate|]. split; [|reflexivity].
  simpl. repeat split; auto.
Qed.

(** C5, amended: two names get the same identifier exactly when they have
    the same length and hold, at each position, the same character or two
    characters that are both replaced by (or are) the dash.  Hence names
    that differ only in characters outside the class always collide, and
    names written with characters of the class alone never do. *)
Theorem sanitizeForId_collides_iff s t :
  (sanitizeForId s = sanitizeForId t ↔ same_after_sanitize s t)
  ∧ (differ_only_outside s t → sanitizeForId s = sanitizeForId t)
  ∧ (all_id_chars s = true → all_id_chars t = true →
     sanitizeForId s = sanitizeForId t → s = t).
Proof.
  split; [apply sanitizeForId_same|]. split.
  - intros H. by apply sanitizeForId_same, differ_only_outside_same.
  - intros Hs Ht. by rewrite !sanitizeForId_id_chars.
Qed.

Lemma sanitizeForId_collides_iff_witness :
  sanitizeForId "my app" = sanitizeForId "my.app"
  ∧ (sanitizeForId "app_1" = sanitizeForId "app_1" → "app_1" = "app_1").
Proof.
  split.
  - apply (proj1 (proj2 (sanitizeForId_collides_iff "my app" "my.app"))).
    simpl. repeat split; auto.
  - apply (proj2 (proj2 (sanitizeForId_collides_iff "app_1" "app_1")));
      reflexivity.
Defined.

(** ** apiFetch *)

Lemma apiFetch_dom {P : Type} ep opts (out : Outcome P) w :
  let w' := (apiFetch ep opts out w).1 in
  heap w' = heap w ∧ app_list w' = app_list w ∧ next_node w' = next_node w
  ∧ draggedItem w' = draggedItem w ∧ console w' = console w
  ∧ requests w' = requests w ++ [{| endpoint := ep; options := opts |}]
  ∧ SECRET_PATH w' = SECRET_PATH w ∧ hostname w' = hostname w.
Proof.
  destruct out as [msg|ok msg|[] data]; simpl; try done.
  by destruct (truthy (message data)).
Qed.

Lemma apiFetch_failed {P : Type} ep opts (out : Outcome P) w :
  failed out = true → ∃ e, (apiFetch ep opts out w).2 = inl e.
Proof. destruct out as [msg|ok msg|[] data]; simpl; try done; eauto. Qed.

Lemma apiFetch_ok {P : Type} ep opts (data : Body P) w :
  (apiFetch ep opts (Json true data) w).2 = inr data.
Proof. reflexivity. Qed.

(** C7: each of the three failure conditions (the network call fails, the
    body is not JSON, the response is not 2xx) makes [apiFetch] reject, and
    nothing else does: the result is on the one rejection side [inl],
    with the error shown in the message box.  On a non-2xx response (its
    JSON body read) the error carries the body's [error] field when that
    is set, that is truthy, and the fixed text otherwise; in the two other
    conditions it is the error of [fetch] or of the JSON parser. *)
Theorem apiFetch_failure_channel {P : Type} ep opts (out : Outcome P) w :
  (failed out = true →
   ∃ e, (apiFetch ep opts out w).2 = inl e
     ∧ message_box (apiFetch ep opts out w).1
         = {| textContent := "Error: " +:+ err_message e;
              display := "block" |}
     ∧ (∀ data, out = Json false data →
          (truthy (error data) = true →
             err_message e = toString (error data))
          ∧ (∀ s, error data = JStr s → s ≠ "" → err_message e = s)
          ∧ (truthy (error data) = false →
             err_message e = "An unknown error occurred."))
     ∧ (∀ msg, out = NetworkFailure msg → err_message e = msg)
     ∧ (∀ ok msg, out = NotJson ok msg → err_message e = msg))
  ∧ (failed out = false → ∃ data, (apiFetch ep opts out w).2 = inr data).
Proof.
  split.
  - destruct out as [msg|ok msg|[] data]; simpl; try done; intros _.
    + eexists; split_and!; try done. by intros ? [= ->].
    + eexists; split_and!; try done. by intros ? ? [= _ ->].
    + eexists. split_and!; try done.
      intros data' [= <-]. simpl. split_and!.
      * by intros ->.
      * intros s Hs Hne. rewrite Hs. simpl.
        by destruct (String.eqb_spec s "").
      * by intros ->.
  - destruct out as [msg|ok msg|[] data]; simpl; try done; eauto.
Qed.

Lemma apiFetch_failure_channel_witness :
  ∃ e, (apiFetch (P := unit) "/s/start/app" Post
          (Json false {| error := JStr "No such app"; message := JUndefined;
                         payload := () |})
          (initial_world "s" "localhost")).2 = inl e
       ∧ err_message e = "No such app".
Proof.
  destruct (proj1 (apiFetch_failure_channel (P := unit) "/s/start/app" Post
      (Json false {| error := JStr "No such app"; message := JUndefined;
                     payload := () |})
      (initial_world "s" "localhost")) eq_refl) as (e & He & _ & Hmsg & _).
  exists e. split; [exact He|].
  apply (proj1 (proj2 (Hmsg _ eq_refl)) "No such app"); [reflexivity|discriminate].
Defined.

(** ** Children lists *)

Lemma remove_child_notin n l : n ∉ l → remove_child n l = l.
Proof.
  intros Hn. unfold remove_child. induction l as [|m l IH]; [done|].
  apply not_elem_of_cons in Hn as [? ?].
  rewrite filter_cons_True by congruence. by rewrite IH.
Qed.

Lemma remove_child_middle n a b :
  n ∉ a → n ∉ b → remove_child n (a ++ n :: b) = a ++ b.
Proof.
  intros Ha Hb. unfold remove_child.
  rewrite filter_app, filter_cons_False by (intros ?; congruence).
  fold (remove_child n a) (remove_child n b).
  by rewrite !remove_child_notin.
Qed.

Lemma insert_at_middle n r a b :
  r ∉ a → insert_at n r (a ++ r :: b) = a ++ n :: r :: b.
Proof.
  induction a as [|m a IH]; simpl; intros Hr.
  - by rewrite decide_True.
  - apply not_elem_of_cons in Hr as [? ?].
    rewrite decide_False by congruence. by rewrite IH.
Qed.

Lemma nextSibling_middle n a b :
  n ∉ a → nextSibling n (a ++ n :: b) = head b.
Proof.
  induction a as [|m a IH]; simpl; intros Hn.
  - by rewrite decide_True.
  - apply not_elem_of_cons in Hn as [? ?].
    rewrite decide_False by congruence. by rewrite IH.
Qed.

Lemma transpose_l x y : transpose x y x = y.
Proof. unfold transpose. by rewrite decide_True. Qed.

Lemma transpose_r x y : transpose x y y = x.
Proof.
  unfold transpose. destruct (decide (y = x)); [done|]. by rewrite decide_True.
Qed.

Lemma transpose_other x y n : n ≠ x → n ≠ y → transpose x y n = n.
Proof. intros. unfold transpose. by rewrite !decide_False. Qed.

Lemma fmap_transpose_notin x y (l : list nat) :
  x ∉ l → y ∉ l → transpose x y <$> l = l.
Proof.
  induction l as [|m l IH]; [done|]. intros Hx Hy.
  apply not_elem_of_cons in Hx as [? ?]. apply not_elem_of_cons in Hy as [? ?].
  rewrite fmap_cons, IH by done. by rewrite transpose_other.
Qed.

Lemma NoDup_swap_parts (a b c : list nat) x y :
  NoDup (a ++ x :: b ++ y :: c) →
  (x ≠ y) ∧ (x ∉ a) ∧ (x ∉ b) ∧ (x ∉ c) ∧ (y ∉ a) ∧ (y ∉ b) ∧ (y ∉ c).
Proof.
  rewrite NoDup_app, NoDup_cons, NoDup_app, NoDup_cons.
  intros (_ & Hd & Hx & _ & Hd' & Hy & _).
  repeat split; set_solver.
Qed.

(** A child [n] moved in front of the head of [c], or to the end when [c]
    is empty. *)
Lemma insertBefore_move_right n (a b c : list nat) :
  NoDup (a ++ n :: b ++ c) →
  insertBefore n (head c) (a ++ n :: b ++ c) = Some (a ++ b ++ n :: c).
Proof.
  intros Hnd.
  assert ((n ∉ a) ∧ (n ∉ b ++ c) ∧ NoDup (a ++ b ++ c)) as (Ha & Hbc & Hnd').
  { revert Hnd. rewrite !NoDup_app, NoDup_cons, !NoDup_app. set_solver. }
  destruct c as [|r c]; simpl.
  - rewrite !app_nil_r in *. by rewrite remove_child_middle, <- app_assoc.
  - rewrite decide_True by set_solver.
    rewrite decide_False by set_solver.
    rewrite remove_child_middle by set_solver.
    rewrite (app_assoc a b (r :: c)), insert_at_middle, <- app_assoc; [done|].
    revert Hnd'. rewrite !NoDup_app, NoDup_cons. set_solver.
Qed.

(** A child [n] moved in front of an earlier child [r]. *)
Lemma insertBefore_move_left n r (a b c : list nat) :
  NoDup (a ++ r :: b ++ n :: c) →
  insertBefore n (Some r) (a ++ r :: b ++ n :: c)
  = Some (a ++ n :: r :: b ++ c).
Proof.
  intros Hnd. unfold insertBefore.
  rewrite decide_True by set_solver.
  pose proof (NoDup_swap_parts _ _ _ _ _ Hnd) as (? & ? & ? & ? & ? & ? & ?).
  rewrite decide_False by done.
  replace (a ++ r :: b ++ n :: c) with ((a ++ r :: b) ++ n :: c)
    by by rewrite <- app_assoc.
  rewrite remove_child_middle by set_solver.
  rewrite <- app_assoc. simpl. by rewrite insert_at_middle.
Qed.

(** The reference is the node itself: it goes back where it is. *)
Lemma insertBefore_self n (a c : list nat) :
  NoDup (a ++ n :: c) →
  insertBefore n (Some n) (a ++ n :: c) = Some (a ++ n :: c).
Proof.
  intros Hnd. unfold insertBefore.
  rewrite decide_True by set_solver. rewrite decide_True by done.
  assert ((n ∉ a) ∧ (n ∉ c) ∧ NoDup (a ++ c)) as (Ha & Hc & Hnd').
  { revert Hnd. rewrite !NoDup_app, NoDup_cons. set_solver. }
  rewrite (nextSibling_middle n a c Ha), (remove_child_middle n a c Ha Hc).
  destruct c as [|r c]; simpl; [by rewrite app_nil_r|].
  rewrite insert_at_middle; [done|].
  revert Hnd'. rewrite !NoDup_app, NoDup_cons. set_solver.
Qed.

(** The two calls of the drop handler on the children [l]: the dragged
    node [x] goes before the target's next sibling, then the target [y]
    before what was the dragged node's next sibling. *)
Lemma swap_children (l : list nat) x y :
  NoDup l → x ∈ l → y ∈ l → x ≠ y →
  ∃ l1, insertBefore x (nextSibling y l) l = Some l1
      ∧ insertBefore y (nextSibling x l) l1 = Some (transpose x y <$> l).
Proof.
  intros Hnd Hx Hy Hxy.
  apply list_elem_of_split in Hx as (a & r & ->).
  apply elem_of_app in Hy as [Hy|Hy].
  - (* the target comes first: a' ++ y :: b ++ x :: r *)
    apply list_elem_of_split in Hy as (a' & b & ->).
    rewrite <- app_assoc in *. simpl in *.
    pose proof (NoDup_swap_parts _ _ _ _ _ Hnd) as (_ & ? & ? & ? & ? & ? & ?).
    assert (transpose x y <$> (a' ++ y :: b ++ x :: r) = a' ++ x :: b ++ y :: r)
      as ->.
    { rewrite !fmap_app, !fmap_cons, !fmap_app, !fmap_cons.
      rewrite transpose_l, transpose_r. by rewrite !fmap_transpose_notin. }
    rewrite nextSibling_middle by done.
    replace (nextSibling x (a' ++ y :: b ++ x :: r)) with (head r).
    2:{ replace (a' ++ y :: b ++ x :: r) with ((a' ++ y :: b) ++ x :: r)
          by by rewrite <- app_assoc.
        rewrite nextSibling_middle; [done|set_solver]. }
    exists (a' ++ y :: x :: b ++ r). split.
    + destruct b as [|b0 b]; simpl.
      * pose proof (insertBefore_self x (a' ++ [y]) r) as Hs.
        rewrite <- !app_assoc in Hs. by apply Hs.
      * pose proof (insertBefore_move_left x b0 (a' ++ [y]) b r) as Hm.
        rewrite <- !app_assoc in Hm. by apply Hm.
    + apply (insertBefore_move_right y a' (x :: b) r).
      eapply NoDup_Permutation_proper; [|exact Hnd]. simpl. solve_Permutation.
  - (* the dragged node comes first: a ++ x :: b ++ y :: c *)
    apply elem_of_cons in Hy as [?|Hy]; [congruence|].
    apply list_elem_of_split in Hy as (b & c & ->).
    pose proof (NoDup_swap_parts _ _ _ _ _ Hnd) as (_ & ? & ? & ? & ? & ? & ?).
    assert (transpose x y <$> (a ++ x :: b ++ y :: c) = a ++ y :: b ++ x :: c)
      as ->.
    { rewrite !fmap_app, !fmap_cons, !fmap_app, !fmap_cons.
      rewrite transpose_l, transpose_r. by rewrite !fmap_transpose_notin. }
    rewrite nextSibling_middle by done.
    replace (nextSibling y (a ++ x :: b ++ y :: c)) with (head c).
    2:{ replace (a ++ x :: b ++ y :: c) with ((a ++ x :: b) ++ y :: c)
          by by rewrite <- app_assoc.
        rewrite nextSibling_middle; [done|set_solver]. }
    exists (a ++ b ++ y :: x :: c). split.
    + pose proof (insertBefore_move_right x a (b ++ [y]) c) as Hm.
      rewrite <- !app_assoc in Hm. by apply Hm.
    + destruct b as [|b0 b]; simpl.
      * apply (insertBefore_self y a (x :: c)).
        eapply NoDup_Permutation_proper; [|exact Hnd]. simpl. solve_Permutation.
      * apply (insertBefore_move_left y b0 a b (x :: c)).
        eapply NoDup_Permutation_proper; [|exact Hnd]. simpl. solve_Permutation.
Qed.

(** ** Nodes of the store *)

Lemma lookup_foldr_alter (f : DomNode → DomNode) (h : gmap nat DomNode)
    (l : list nat) n :
  NoDup l →
  foldr (alter f) h l !! n = if decide (n ∈ l) then f <$> h !! n else h !! n.
Proof.
  induction l as [|m l IH]; simpl; intros Hnd.
  - done.
  - apply NoDup_cons in Hnd as [Hm Hnd]. rewrite lookup_alter.
    destruct (decide (m = n)) as [->|Hne].
    + rewrite decide_True by set_solver. rewrite IH by done.
      by rewrite decide_False.
    + rewrite IH by done.
      destruct (decide (n ∈ l)).
      * rewrite decide_True by set_solver. done.
      * rewrite decide_False by set_solver. done.
Qed.

Lemma skeleton_foldr_alter (f : DomNode → DomNode) (h : gmap nat DomNode)
    (l : list nat) n :
  (∀ k, skeleton (f k) = skeleton k) →
  skeleton <$> foldr (alter f) h l !! n = skeleton <$> h !! n.
Proof.
  intros Hf. induction l as [|m l IH]; simpl; [done|].
  rewrite lookup_alter. destruct (decide (m = n)) as [->|Hne]; [|done].
  rewrite <- IH. destruct (foldr (alter f) h l !! n); simpl; [|done].
  by rewrite Hf.
Qed.

Lemma find_card_Some h id l n c :
  find_card h id l = Some (n, c) →
  n ∈ l ∧ h !! n = Some (CardNode c) ∧ card_id c = id.
Proof.
  induction l as [|m l IH]; simpl; [done|].
  destruct (h !! m) as [[s|c'|s]|] eqn:Hm;
    try (intros H; apply IH in H; set_solver).
  destruct (decide (card_id c' = id)).
  - intros [= <- <-]. set_solver.
  - intros H; apply IH in H; set_solver.
Qed.

Lemma find_card_skeleton (h h' : gmap nat DomNode) id l :
  (∀ n, skeleton <$> h' !! n = skeleton <$> h !! n) →
  fst <$> find_card h' id l = fst <$> find_card h id l.
Proof.
  intros Hs. induction l as [|m l IH]; simpl; [done|].
  specialize (Hs m).
  destruct (h !! m) as [[s|c|s]|], (h' !! m) as [[s'|c'|s']|];
    simpl in Hs; try done.
  injection Hs as Hid _ _ _. rewrite Hid.
  by destruct (decide (card_id c = id)).
Qed.

Lemma data_get_is_Some k (data : StatusData) :
  k ∈ data.*1 → is_Some (data_get k data).
Proof.
  induction data as [|[k' v] data IH]; simpl; [by intros ?%elem_of_nil|].
  destruct (decide (k' = k)); [eauto|]. intros [?|?]%elem_of_cons; [done|auto].
Qed.

Lemma data_get_middle k v (pre post : StatusData) :
  k ∉ pre.*1 → data_get k (pre ++ (k, v) :: post) = Some v.
Proof.
  induction pre as [|[k' v'] pre IH]; simpl; intros Hk.
  - by rewrite decide_True.
  - apply not_elem_of_cons in Hk as [? ?]. rewrite decide_False by done. auto.
Qed.

Lemma skeleton_applyStatus host a c :
  skeleton (CardNode (applyStatus host a c)) = skeleton (CardNode c).
Proof. unfold applyStatus. by destruct (truthy (running a)). Qed.

Lemma wf_card_applyStatus host a c : wf_card c → wf_card (applyStatus host a c).
Proof.
  unfold wf_card, applyStatus. intros (? & ? & ? & ?).
  destruct (truthy (running a)); simpl; repeat split; try done; set_solver.
Qed.

Lemma skeleton_mark_unknown k : skeleton (mark_unknown k) = skeleton k.
Proof.
  destruct k as [s|c|s]; simpl; try done.
  by destruct (decide ("status" ∈ status_class c)).
Qed.

Lemma wf_node_mark_unknown k : wf_node k → wf_node (mark_unknown k).
Proof.
  destruct k as [s|c|s]; simpl; try done.
  destruct (decide ("status" ∈ status_class c)); [|done].
  unfold wf_card. simpl. intros (? & ? & ? & ?). repeat split; try done.
  set_solver.
Qed.

(** *** One entry of the status response *)

(** What the callback leaves alone, and where it writes. *)
Lemma statusEntry_frame data k w w' :
  statusEntry data k w = Some w' →
  same_frame w w'
  ∧ message_box w' = message_box w
  ∧ console w' = console w ∧ requests w' = requests w
  ∧ (∀ m, fst <$> getElementById (card_id_of k) w ≠ Some m →
          heap w' !! m = heap w !! m)
  ∧ (wf_dom w → wf_dom w').
Proof.
  unfold statusEntry. fold (card_id_of k).
  unfold same_frame.
  destruct (getElementById (card_id_of k) w) as [[n c]|] eqn:Hfind.
  2:{ intros [= <-]. split_and!; done. }
  destruct (data_get k data) as [a|]; [|done].
  destruct (decide _) as [Hst|]; [|done]. intros [= <-]. simpl.
  apply find_card_Some in Hfind as (Hn & Hc & Hid).
  split_and!; try done.
  - intros m. destruct (decide (n = m)) as [<-|Hne].
    + rewrite lookup_insert_eq, Hc.
      exact (f_equal Some (skeleton_applyStatus _ _ _)).
    + by rewrite lookup_insert_ne.
  - intros m Hm. rewrite lookup_insert_ne; [done|]. intros <-. by apply Hm.
  - intros [Hnd Hall]. split; [done|]. simpl. eapply Forall_impl; [exact Hall|].
    intros m Hm. simpl in *. destruct (decide (n = m)) as [<-|Hne].
    + rewrite lookup_insert_eq. rewrite Hc in Hm. simpl in *.
      by apply wf_card_applyStatus.
    + by rewrite lookup_insert_ne.
Qed.

Lemma same_frame_refl w : same_frame w w.
Proof. unfold same_frame. split_and!; done. Qed.

Lemma same_frame_trans w1 w2 w3 :
  same_frame w1 w2 → same_frame w2 w3 → same_frame w1 w3.
Proof.
  unfold same_frame. intros (? & ? & ? & ? & ? & Hs) (? & ? & ? & ? & ? & Hs').
  split_and!; try congruence.
Qed.

Lemma getElementById_frame id w w' :
  same_frame w w' →
  fst <$> getElementById id w' = fst <$> getElementById id w.
Proof.
  intros (Hl & _ & _ & _ & _ & Hs). unfold getElementById. rewrite Hl.
  by apply find_card_skeleton.
Qed.

Lemma card_id_of_inj_sanitize a b :
  card_id_of a = card_id_of b → sanitizeForId a = sanitizeForId b.
Proof. unfold card_id_of. simpl. by intros [= ?]. Qed.

Lemma wf_dom_lookup w n c :
  wf_dom w → n ∈ app_list w → heap w !! n = Some (CardNode c) → wf_card c.
Proof.
  intros [_ Hall] Hn Hc. rewrite Forall_forall in Hall.
  specialize (Hall n Hn). by rewrite Hc in Hall.
Qed.

(** On a well-formed list the callback raises nothing for a key of the
    response, and writes the card it found. *)
Lemma statusEntry_found data k a w n c :
  wf_dom w → data_get k data = Some a →
  getElementById (card_id_of k) w = Some (n, c) →
  statusEntry data k w
  = Some (set_heap (<[n := CardNode (applyStatus (hostname w) a c)]> (heap w)) w).
Proof.
  intros Hwf Ha Hfind. unfold statusEntry. fold (card_id_of k).
  rewrite Hfind, Ha.
  apply find_card_Some in Hfind as (Hn & Hc & Hid).
  destruct (wf_dom_lookup _ _ _ Hwf Hn Hc) as (Hcid & Hsid & _).
  rewrite decide_True; [done|].
  rewrite Hsid. f_equal. apply card_id_of_inj_sanitize.
  unfold card_id_of. by rewrite <- Hcid.
Qed.

Lemma statusEntry_is_Some data k w :
  wf_dom w → is_Some (data_get k data) → is_Some (statusEntry data k w).
Proof.
  intros Hwf [a Ha].
  destruct (getElementById (card_id_of k) w) as [[n c]|] eqn:Hfind.
  - erewrite statusEntry_found; eauto.
  - unfold statusEntry. fold (card_id_of k). rewrite Hfind. eauto.
Qed.

(** *** The whole response *)

Lemma forEach_status_app data l1 l2 w :
  forEach_status data (l1 ++ l2) w
  = match forEach_status data l1 w with
    | (w1, true) => forEach_status data l2 w1
    | r => r
    end.
Proof.
  revert w. induction l1 as [|k l1 IH]; intros w; simpl; [done|].
  destruct (statusEntry data k w); [apply IH|done].
Qed.

Lemma forEach_status_frame data keys w :
  let w' := (forEach_status data keys w).1 in
  same_frame w w'
  ∧ message_box w' = message_box w
  ∧ console w' = console w ∧ requests w' = requests w
  ∧ (∀ m, (∀ k, k ∈ keys → fst <$> getElementById (card_id_of k) w ≠ Some m) →
          heap w' !! m = heap w !! m)
  ∧ (wf_dom w → wf_dom w').
Proof.
  revert w. induction keys as [|k keys IH]; intros w; simpl.
  { split_and!; auto using same_frame_refl. }
  destruct (statusEntry data k w) as [w1|] eqn:Hk; simpl.
  2:{ split_and!; auto using same_frame_refl. }
  apply statusEntry_frame in Hk as (Hf & Hmb & Hco & Hrq & Hfr & Hwf).
  destruct (IH w1) as (Hf' & Hmb' & Hco' & Hrq' & Hfr' & Hwf').
  split_and!; try congruence; auto.
  - by eapply same_frame_trans.
  - intros m Hm. rewrite Hfr'.
    + apply Hfr, Hm. set_solver.
    + intros k' Hk'. rewrite (getElementById_frame _ _ _ Hf). apply Hm. set_solver.
Qed.

Lemma forEach_status_completes data keys w :
  wf_dom w → (∀ k, k ∈ keys → is_Some (data_get k data)) →
  (forEach_status data keys w).2 = true.
Proof.
  revert w. induction keys as [|k keys IH]; intros w Hwf Hkeys; simpl; [done|].
  assert (is_Some (statusEntry data k w)) as [w1 Hk]
    by (apply statusEntry_is_Some; [done|apply Hkeys; set_solver]).
  rewrite Hk. apply IH; [|set_solver].
  apply statusEntry_frame in Hk as (_ & _ & _ & _ & _ & Hwf'). auto.
Qed.

(** *** updateStatus *)

Lemma apiFetch_frame {P : Type} ep opts (out : Outcome P) w :
  same_frame w (apiFetch ep opts out w).1
  ∧ heap (apiFetch ep opts out w).1 = heap w
  ∧ (wf_dom w → wf_dom (apiFetch ep opts out w).1).
Proof.
  destruct (apiFetch_dom ep opts out w) as (Hh & Hl & ? & ? & ? & ? & ? & ?).
  unfold same_frame, wf_dom. rewrite Hh, Hl. split_and!; done.
Qed.

Lemma updateStatus_catch_frame e w :
  let w' := updateStatus_catch e w in
  same_frame w w'
  ∧ message_box w' = message_box w ∧ requests w' = requests w
  ∧ (wf_dom w → wf_dom w').
Proof.
  unfold updateStatus_catch, same_frame. simpl. split_and!; try done.
  - intros m. apply skeleton_foldr_alter, skeleton_mark_unknown.
  - intros [Hnd Hall]. split; [done|]. simpl.
    rewrite Forall_forall in *. intros n Hn. specialize (Hall n Hn).
    rewrite lookup_foldr_alter, decide_True by done.
    destruct (heap w !! n); simpl in *; [|done]. by apply wf_node_mark_unknown.
Qed.

Lemma card_at_updateStatus_catch e w n c :
  wf_dom w → n ∈ app_list w → card_at w n = Some c →
  card_at (updateStatus_catch e w) n = Some (set_unknown c).
Proof.
  intros Hwf Hn Hc. unfold card_at in *. 
  destruct (heap w !! n) as [[s|c'|s]|] eqn:Hh; try done.
  injection Hc as ->.
  pose proof (wf_dom_lookup _ _ _ Hwf Hn Hh) as (_ & _ & Hst & _).
  unfold updateStatus_catch. simpl.
  rewrite lookup_foldr_alter, decide_True by (done || apply Hwf).
  rewrite Hh. simpl. by rewrite decide_True.
Qed.

Lemma updateStatus_frame out w :
  let w' := updateStatus out w in
  same_frame w w'
  ∧ requests w' = requests w ++ [{| endpoint := "/status"; options := NoOptions |}]
  ∧ (wf_dom w → wf_dom w').
Proof.
  unfold updateStatus.
  pose proof (apiFetch_frame "/status" NoOptions out w) as (Hf & _ & Hwf).
  pose proof (apiFetch_dom "/status" NoOptions out w) as (_ & _ & _ & _ & _ & Hrq & _).
  destruct (apiFetch "/status" NoOptions out w) as [w0 [e|data]]; simpl in *.
  - destruct (updateStatus_catch_frame e w0) as (Hf' & _ & Hrq' & Hwf').
    split_and!; [by eapply same_frame_trans|congruence|auto].
  - pose proof (forEach_status_frame (payload data) (payload data).*1 w0)
      as (Hf' & _ & _ & Hrq' & _ & Hwf').
    destruct (forEach_status _ _ w0) as [w1 []]; simpl in *.
    + split_and!; [by eapply same_frame_trans|congruence|auto].
    + destruct (updateStatus_catch_frame TypeError w1) as (Hf'' & _ & Hrq'' & Hwf'').
      split_and!; [|congruence|auto].
      eapply same_frame_trans; [|exact Hf'']. by eapply same_frame_trans.
Qed.

(** On a well-formed list a successful poll is the loop over the keys. *)
Lemma updateStatus_ok body w :
  wf_dom w →
  updateStatus (Json true body) w
  = (forEach_status (payload body) (payload body).*1
       (apiFetch "/status" NoOptions (Json true body) w).1).1.
Proof.
  intros Hwf. unfold updateStatus.
  pose proof (apiFetch_frame "/status" NoOptions (Json true body) w) as (_ & _ & Hwf0).
  rewrite (surjective_pairing (apiFetch "/status" NoOptions (Json true body) w)).
  rewrite apiFetch_ok.
  pose proof (forEach_status_completes (payload body) (payload body).*1 _ (Hwf0 Hwf))
    as Hdone.
  destruct (forEach_status _ _ _) as [w1 b]; simpl in *.
  rewrite Hdone; [done|]. intros k. apply data_get_is_Some.
Qed.

Lemma omap_fmap_pointwise {A B} (f g : A → option B) (h : B → B) (l : list A) :
  (∀ x, x ∈ l → f x = h <$> g x) → omap f l = h <$> omap g l.
Proof.
  induction l as [|x l IH]; intros H; csimpl; [done|].
  rewrite (H x) by set_solver. rewrite IH by set_solver.
  by destruct (g x).
Qed.

(** C4: when the status fetch fails, by any of the three failure
    conditions, [updateStatus] leaves the same cards in the list and every
    one of them has its status indicator in the unknown state (text and
    class), whatever the indicator showed before; nothing else of a card
    changes. *)
Theorem updateStatus_failure_all_unknown statusOut w :
  wf_dom w → failed statusOut = true →
  let w' := updateStatus statusOut w in
  app_list w' = app_list w
  ∧ rendered_cards w' = set_unknown <$> rendered_cards w
  ∧ Forall status_unknown (rendered_cards w')
  ∧ ∀ n c, n ∈ app_list w → card_at w n = Some c →
           card_at w' n = Some (set_unknown c).
Proof.
  intros Hwf Hfail. simpl.
  assert (∀ n c, n ∈ app_list w → card_at w n = Some c →
            card_at (updateStatus statusOut w) n = Some (set_unknown c)) as Hcard.
  { intros n c Hn Hc. unfold updateStatus.
    destruct (apiFetch_failed "/status" NoOptions statusOut w Hfail) as [e He].
    pose proof (apiFetch_frame "/status" NoOptions statusOut w) as ((Hl & _) & Hh & Hwf0).
    destruct (apiFetch "/status" NoOptions statusOut w) as [w0 r]; simpl in *.
    subst r. apply card_at_updateStatus_catch; [auto|congruence|].
    unfold card_at. by rewrite Hh. }
  pose proof (updateStatus_frame statusOut w) as ((Hl & _ & _ & _ & _ & Hs) & _).
  assert (rendered_cards (updateStatus statusOut w)
          = set_unknown <$> rendered_cards w) as Hcards.
  { unfold rendered_cards. rewrite Hl. apply omap_fmap_pointwise.
    intros n Hn. destruct (card_at w n) as [c|] eqn:Hc; [by apply Hcard|].
    simpl. unfold card_at in *. specialize (Hs n).
    destruct (heap w !! n) as [[s|c|s]|], (heap (updateStatus statusOut w) !! n) as [[s'|c'|s']|];
      simpl in *; done. }
  split_and!; try done.
  rewrite Hcards. apply Forall_fmap, Forall_true. intros c. by split.
Qed.

Lemma skeleton_app_name (h h' : gmap nat DomNode) n c c' :
  skeleton <$> h' !! n = skeleton <$> h !! n →
  h !! n = Some (CardNode c) → h' !! n = Some (CardNode c') →
  card_id c' = card_id c ∧ app_name c' = app_name c.
Proof. intros Hs Hc Hc'. rewrite Hc, Hc' in Hs. by injection Hs. Qed.

Lemma applyStatus_link host a c :
  let c' := applyStatus host a c in
  (truthy (running a) = true → truthy (port a) = true →
     link_href c' = "http://" +:+ host +:+ ":" +:+ toString (port a)
     ∧ clickable c' ∧ status_text c' = "Run")
  ∧ (truthy (running a) = true → truthy (port a) = false →
     non_interactive c' ∧ link_href c' = link_href c ∧ status_text c' = "Run")
  ∧ (truthy (running a) = false →
     non_interactive c' ∧ link_href c' = "#" ∧ status_text c' = "Stop"
     ∧ status_class c' = ["status"; "status-stopped"]).
Proof.
  unfold applyStatus, clickable, non_interactive.
  destruct (truthy (running a)), (truthy (port a)); simpl; split_and!; done.
Qed.

(** C3, amended: on a well-formed list, take a key of a successful status
    response whose sanitized identifier finds a card, and suppose no later
    key of the response has the same sanitized identifier.  After the poll
    the card that was found shows what the response says of the key:
    running with a truthy port, the link points to that port on the
    current host and is clickable; running with a falsy port, the link is
    non-interactive; not running, the link is non-interactive, points to
    "#", and the status text reads "Stop". *)
Theorem updateStatus_card_state w body pre post appName appData n c0 :
  wf_dom w →
  payload body = pre ++ (appName, appData) :: post →
  NoDup (payload body).*1 →
  (∀ k, k ∈ post.*1 → sanitizeForId k ≠ sanitizeForId appName) →
  getElementById (card_id_of appName) w = Some (n, c0) →
  ∃ c, card_at (updateStatus (Json true body) w) n = Some c
    ∧ app_name c = app_name c0
    ∧ (truthy (running appData) = true → truthy (port appData) = true →
         link_href c
         = "http://" +:+ hostname w +:+ ":" +:+ toString (port appData)
         ∧ clickable c ∧ status_text c = "Run")
    ∧ (truthy (running appData) = true → truthy (port appData) = false →
         non_interactive c ∧ status_text c = "Run")
    ∧ (truthy (running appData) = false →
         non_interactive c ∧ link_href c = "#" ∧ status_text c = "Stop"
         ∧ status_class c = ["status"; "status-stopped"]).
Proof.
  intros Hwf Hdata Hnd Hpost Hfind.
  rewrite updateStatus_ok by done. unfold StatusData in *.
  pose proof (apiFetch_frame "/status" NoOptions (Json true body) w)
    as (Hf0 & Hh0 & Hwf0).
  set (w0 := (apiFetch "/status" NoOptions (Json true body) w).1) in *.
  clearbody w0. specialize (Hwf0 Hwf).
  rewrite Hdata in Hnd. rewrite Hdata. clear Hdata.
  rewrite fmap_app, fmap_cons in *. simpl fst in *.
  assert (appName ∉ pre.*1) as Hpre.
  { apply NoDup_app in Hnd as (_ & Hd & _). intros ?. eapply Hd; [done|set_solver]. }
  (* the keys before *)
  rewrite forEach_status_app.
  pose proof (forEach_status_completes (pre ++ (appName, appData) :: post)
                pre.*1 w0 Hwf0) as Hdone.
  pose proof (forEach_status_frame (pre ++ (appName, appData) :: post)
                pre.*1 w0) as (Hfa & _ & _ & _ & _ & Hwfa).
  destruct (forEach_status _ pre.*1 w0) as [wa b]; simpl in *.
  rewrite Hdone.
  2:{ intros k Hk. apply data_get_is_Some. rewrite fmap_app. set_solver. }
  specialize (Hwfa Hwf0).
  pose proof (same_frame_trans _ _ _ Hf0 Hfa) as Hfwa.
  (* the key itself *)
  pose proof (getElementById_frame (card_id_of appName) _ _ Hfwa) as Hfst.
  rewrite Hfind in Hfst. simpl in Hfst.
  destruct (getElementById (card_id_of appName) wa) as [[n' c1]|] eqn:Hfind1;
    [|done].
  injection Hfst as ->.
  simpl.
  rewrite (statusEntry_found _ appName appData wa n c1 Hwfa); [|by apply data_get_middle|done].
  set (wb := set_heap _ wa).
  (* the keys after *)
  pose proof (forEach_status_frame (pre ++ (appName, appData) :: post)
                post.*1 wb) as (_ & _ & _ & _ & Hfr & _).
  destruct (forEach_status _ post.*1 wb) as [wc b']; simpl in *.
  apply find_card_Some in Hfind as (Hn & Hc0 & Hid0).
  apply find_card_Some in Hfind1 as (_ & Hc1 & Hid1).
  destruct Hfwa as (_ & _ & _ & _ & Hhost & Hsk).
  destruct (skeleton_app_name _ _ n c0 c1 (Hsk n) Hc0 Hc1) as [_ Hname].
  assert (heap wc !! n
          = Some (CardNode (applyStatus (hostname wa) appData c1))) as Hc.
  { rewrite Hfr; [apply lookup_insert_eq|].
    intros k Hk Hfindk.
    destruct (getElementById (card_id_of k) wb) as [[m ck]|] eqn:Hfk; [|done].
    injection Hfindk as ->.
    apply find_card_Some in Hfk as (_ & Hck & Hidk).
    unfold wb in Hck. simpl in Hck. rewrite lookup_insert_eq in Hck.
    injection Hck as <-.
    apply (Hpost k Hk). apply card_id_of_inj_sanitize.
    rewrite <- Hidk, <- Hid1. unfold applyStatus.
    by destruct (truthy (running appData)). }
  exists (applyStatus (hostname wa) appData c1).
  split; [unfold card_at; by rewrite Hc|].
  split; [rewrite <- Hname; unfold applyStatus; by destruct (truthy (running appData))|].
  rewrite Hhost.
  destruct (applyStatus_link (hostname w) appData c1) as (H1 & H2 & H3).
  split_and!; try done.
  intros Hr Hp. destruct (H2 Hr Hp) as (? & _ & ?). by split.
Qed.

(** C9, amended: on a well-formed list a successful poll writes only the
    cards that the sanitized identifier of some key of the response finds.
    Every other node keeps its state; in particular a card whose name has
    a sanitized identifier different from that of every key keeps its
    status indicator, buttons and link as they were. *)
Theorem updateStatus_writes_found_cards_only w (body : Body StatusData) :
  wf_dom w →
  let w' := updateStatus (Json true body) w in
  app_list w' = app_list w
  ∧ (∀ n, (∀ k, k ∈ (payload body).*1 →
             fst <$> getElementById (card_id_of k) w ≠ Some n) →
          heap w' !! n = heap w !! n)
  ∧ (∀ n c, n ∈ app_list w → card_at w n = Some c →
            (∀ k, k ∈ (payload body).*1 →
               sanitizeForId k ≠ sanitizeForId (app_name c)) →
            card_at w' n = Some c).
Proof.
  intros Hwf. simpl.
  pose proof (updateStatus_frame (Json true body) w) as ((Hl & _) & _).
  assert (∀ n, (∀ k, k ∈ (payload body).*1 →
             fst <$> getElementById (card_id_of k) w ≠ Some n) →
          heap (updateStatus (Json true body) w) !! n = heap w !! n) as Hframe.
  { intros n Hn. rewrite updateStatus_ok by done.
    pose proof (apiFetch_frame "/status" NoOptions (Json true body) w)
      as (Hf0 & Hh0 & _).
    pose proof (forEach_status_frame (payload body) (payload body).*1
                  (apiFetch "/status" NoOptions (Json true body) w).1)
      as (_ & _ & _ & _ & Hfr & _).
    rewrite Hfr, Hh0; [done|].
    intros k Hk. rewrite (getElementById_frame _ _ _ Hf0). by apply Hn. }
  split_and!; [done|done|].
  intros n c Hn Hc Hkeys. unfold card_at in *. rewrite Hframe; [done|].
  intros k Hk Hfind.
  destruct (getElementById (card_id_of k) w) as [[m ck]|] eqn:Hfk; [|done].
  injection Hfind as ->.
  apply find_card_Some in Hfk as (_ & Hck & Hidk).
  rewrite Hck in Hc. injection Hc as ->.
  destruct (wf_dom_lookup _ _ _ Hwf Hn Hck) as (Hcid & _).
  apply (Hkeys k Hk). symmetry. apply card_id_of_inj_sanitize.
  unfold card_id_of at 1. by rewrite <- Hcid.
Qed.

(** *** Falsy ports *)

Lemma applyStatus_falsy_port host r p c :
  truthy p = false →
  applyStatus host {| running := r; port := p |} c
  = applyStatus host {| running := r; port := JUndefined |} c.
Proof. intros Hp. unfold applyStatus. simpl. by rewrite Hp. Qed.

Lemma data_get_falsy_port k appName r p (pre post : StatusData) :
  truthy p = false →
  match data_get k (pre ++ (appName, {| running := r; port := p |}) :: post),
        data_get k (pre ++ (appName, {| running := r; port := JUndefined |}) :: post)
  with
  | Some a, Some a' => ∀ host c, applyStatus host a c = applyStatus host a' c
  | None, None => True
  | _, _ => False
  end.
Proof.
  intros Hp. induction pre as [|[k' v] pre IH]; simpl.
  - destruct (decide (appName = k)).
    + intros host c. by apply applyStatus_falsy_port.
    + by destruct (data_get k post).
  - by destruct (decide (k' = k)).
Qed.

Lemma forEach_status_same_effect (data data' : StatusData) keys w :
  (∀ k, match data_get k data, data_get k data' with
        | Some a, Some a' => ∀ host c, applyStatus host a c = applyStatus host a' c
        | None, None => True
        | _, _ => False
        end) →
  forEach_status data keys w = forEach_status data' keys w.
Proof.
  intros Hsame. revert w. induction keys as [|k keys IH]; intros w; simpl; [done|].
  assert (statusEntry data k w = statusEntry data' k w) as ->; [|by destruct (statusEntry data' k w)].
  unfold statusEntry. destruct (getElementById _ w) as [[n c]|]; [|done].
  specialize (Hsame k).
  destruct (data_get k data), (data_get k data'); try done.
  by rewrite Hsame.
Qed.

Lemma falsy_values :
  truthy (JNum 0) = false ∧ truthy (JStr "") = false
  ∧ truthy JUndefined = false ∧ truthy JNull = false
  ∧ truthy (JBool false) = false.
Proof. done. Qed.

Lemma truthy_false_iff v :
  truthy v = false
  ↔ v = JNum 0 ∨ v = JStr "" ∨ v = JUndefined ∨ v = JNull ∨ v = JBool false.
Proof.
  split.
  - destruct v as [| |[]|n|s]; simpl; intros H; try done; auto.
    + apply negb_false_iff, Z.eqb_eq in H. subst. auto.
    + apply negb_false_iff, String.eqb_eq in H. subst. auto.
  - intros [->|[->|[->|[->| ->]]]]; done.
Qed.

(** The card that a key of the response finds, after the poll, when no
    later key has the same sanitized identifier: it is what the callback
    made of the card as the earlier keys left it, and that card is the one
    from before the poll when no earlier key has the identifier either. *)
Lemma updateStatus_last_writer w body pre post appName appData n c0 :
  wf_dom w →
  payload body = pre ++ (appName, appData) :: post →
  NoDup (payload body).*1 →
  (∀ k, k ∈ post.*1 → sanitizeForId k ≠ sanitizeForId appName) →
  getElementById (card_id_of appName) w = Some (n, c0) →
  ∃ c1, card_at (updateStatus (Json true body) w) n
        = Some (applyStatus (hostname w) appData c1)
      ∧ app_name c1 = app_name c0
      ∧ ((∀ k, k ∈ pre.*1 → sanitizeForId k ≠ sanitizeForId appName) →
         c1 = c0).
Proof.
  intros Hwf Hdata Hnd Hpost Hfind.
  rewrite updateStatus_ok by done. unfold StatusData in *.
  pose proof (apiFetch_frame "/status" NoOptions (Json true body) w)
    as (Hf0 & Hh0 & Hwf0).
  set (w0 := (apiFetch "/status" NoOptions (Json true body) w).1) in *.
  clearbody w0. specialize (Hwf0 Hwf).
  rewrite Hdata in Hnd. rewrite Hdata. clear Hdata.
  rewrite fmap_app, fmap_cons in *. simpl fst in *.
  rewrite forEach_status_app.
  pose proof (forEach_status_completes (pre ++ (appName, appData) :: post)
                pre.*1 w0 Hwf0) as Hdone.
  pose proof (forEach_status_frame (pre ++ (appName, appData) :: post)
                pre.*1 w0) as (Hfa & _ & _ & _ & Hfr0 & Hwfa).
  destruct (forEach_status _ pre.*1 w0) as [wa b]; simpl in *.
  rewrite Hdone.
  2:{ intros k Hk. apply data_get_is_Some. rewrite fmap_app. set_solver. }
  specialize (Hwfa Hwf0).
  pose proof (same_frame_trans _ _ _ Hf0 Hfa) as Hfwa.
  pose proof (getElementById_frame (card_id_of appName) _ _ Hfwa) as Hfst.
  rewrite Hfind in Hfst. simpl in Hfst.
  destruct (getElementById (card_id_of appName) wa) as [[n' c1]|] eqn:Hfind1;
    [|done].
  injection Hfst as ->.
  assert (appName ∉ pre.*1) as Hpre.
  { apply NoDup_app in Hnd as (_ & Hd & _). intros ?. eapply Hd; [done|set_solver]. }
  simpl.
  rewrite (statusEntry_found _ appName appData wa n c1 Hwfa);
    [|by apply data_get_middle|done].
  set (wb := set_heap _ wa).
  pose proof (forEach_status_frame (pre ++ (appName, appData) :: post)
                post.*1 wb) as (_ & _ & _ & _ & Hfr & _).
  destruct (forEach_status _ post.*1 wb) as [wc b']; simpl in *.
  pose proof Hfind as Hfind0.
  apply find_card_Some in Hfind as (Hn & Hc0 & Hid0).
  apply find_card_Some in Hfind1 as (_ & Hc1 & Hid1).
  destruct Hfwa as (_ & _ & _ & _ & Hhost & Hsk).
  destruct (skeleton_app_name _ _ n c0 c1 (Hsk n) Hc0 Hc1) as [_ Hname].
  exists c1. split_and!.
  - unfold card_at. rewrite Hfr; [|].
    + unfold wb. simpl. rewrite lookup_insert_eq. by rewrite Hhost.
    + intros k Hk Hfindk.
      destruct (getElementById (card_id_of k) wb) as [[m ck]|] eqn:Hfk; [|done].
      injection Hfindk as ->.
      apply find_card_Some in Hfk as (_ & Hck & Hidk).
      unfold wb in Hck. simpl in Hck. rewrite lookup_insert_eq in Hck.
      injection Hck as <-.
      apply (Hpost k Hk). apply card_id_of_inj_sanitize.
      rewrite <- Hidk, <- Hid1. unfold applyStatus.
      by destruct (truthy (running appData)).
  - done.
  - intros Hbefore.
    assert (heap wa !! n = heap w !! n) as Heq.
    { rewrite Hfr0, Hh0; [done|].
      intros k Hk Hfindk.
      destruct (getElementById (card_id_of k) w0) as [[m ck]|] eqn:Hfk; [|done].
      injection Hfindk as ->.
      apply find_card_Some in Hfk as (_ & Hck & Hidk).
      rewrite Hh0, Hc0 in Hck. injection Hck as <-.
      apply (Hbefore k Hk). apply card_id_of_inj_sanitize. congruence. }
    rewrite Hc1, Hc0 in Heq. by injection Heq.
Qed.

(** C8, amended: for an app reported running whose port is falsy (0, the
    empty string, null, false, or no port at all), the poll ends in
    exactly the state in which it ends with the port absent, so the port 0
    cannot be told from no port.  On a well-formed list, when the key's
    sanitized identifier finds a card and no later key of the response
    has the same sanitized identifier, that card reads "Run" after the
    poll and its link is non-interactive; when no earlier key has the
    identifier either, the link's target is the one it had before. *)
Theorem updateStatus_falsy_port_as_absent w err msg (pre post : StatusData)
    appName r p :
  truthy r = true → truthy p = false →
  let response q :=
    Json true {| error := err; message := msg;
                 payload := pre ++ (appName, {| running := r; port := q |})
                                :: post |} in
  let w' := updateStatus (response p) w in
  w' = updateStatus (response JUndefined) w
  ∧ ∀ n c0,
      wf_dom w →
      NoDup (pre.*1 ++ appName :: post.*1) →
      (∀ k, k ∈ post.*1 → sanitizeForId k ≠ sanitizeForId appName) →
      getElementById (card_id_of appName) w = Some (n, c0) →
      ∃ c, card_at w' n = Some c
         ∧ app_name c = app_name c0
         ∧ non_interactive c
         ∧ status_text c = "Run"
         ∧ ((∀ k, k ∈ pre.*1 → sanitizeForId k ≠ sanitizeForId appName) →
            link_href c = link_href c0
            ∧ c = applyStatus (hostname w)
                    {| running := r; port := JUndefined |} c0).
Proof.
  intros Hr Hp. simpl. split.
  - unfold updateStatus. simpl.
    rewrite !fmap_app, !fmap_cons. simpl.
    set (w0 := if truthy msg then _ else _).
    by rewrite (forEach_status_same_effect _ _ _ _
                  (λ k, data_get_falsy_port k appName r p pre post Hp)).
  - intros n c0 Hwf Hnd Hpost Hfind.
    destruct (updateStatus_last_writer w
                {| error := err; message := msg;
                   payload := pre ++ (appName, {| running := r; port := p |})
                                  :: post |}
                pre post appName {| running := r; port := p |} n c0)
      as (c1 & Hc & Hname & Hfirst); try done.
    { simpl. by rewrite fmap_app, fmap_cons. }
    eexists. split; [exact Hc|].
    destruct (applyStatus_link (hostname w) {| running := r; port := p |} c1)
      as (_ & H2 & _).
    destruct (H2 Hr Hp) as (Hni & Hhref & Hrun).
    split_and!; try done.
    + rewrite <- Hname. unfold applyStatus. simpl. by rewrite Hr.
    + intros Hbefore. rewrite (Hfirst Hbefore) in *.
      split; [done|]. by apply applyStatus_falsy_port.
Qed.

(** C3 fails as stated.  Two configured apps "a b" and "a.b" are rendered;
    the status response reports "a b" running on port 8080 and "a.b"
    stopped.  Both keys lead to the first card with the identifier
    "card-a-b", the card of "a b": after the poll its link points to "#",
    is not clickable and its text reads "Stop", while the card of "a.b"
    was never written. *)
Lemma updateStatus_collision_overrides :
  let data := [("a b", {| running := JBool true; port := JNum 8080 |});
               ("a.b", {| running := JBool false; port := JUndefined |})] in
  let w' := updateStatus (json_ok data) colliding_page in
  wf_dom colliding_page
  ∧ rendered_names colliding_page = ["a b"; "a.b"]
  ∧ (λ c, (app_name c, status_text c, link_href c, link_pointerEvents c))
      <$> rendered_cards w'
    = [("a b", "Stop", "#", "none"); ("a.b", "Unknown", "#", "")]
  ∧ ∃ c, card_at w' 4%nat = Some c
       ∧ app_name c = "a b"
       ∧ data_get "a b" data
         = Some {| running := JBool true; port := JNum 8080 |}
       ∧ link_href c
         ≠ "http://" +:+ hostname colliding_page +:+ ":" +:+ toString (JNum 8080)
       ∧ ¬ clickable c.
Proof.
  split; [compute_done|]. split; [by vm_compute|]. split; [by vm_compute|].
  eexists. split; [by vm_compute|]. split_and!; try done.
  by intros [? ?].
Qed.

Lemma updateStatus_card_state_witness :
  ∃ c, card_at
         (updateStatus
            (json_ok [("a b", {| running := JBool true; port := JNum 8080 |})])
            colliding_page) 4%nat = Some c
     ∧ link_href c = "http://localhost:8080" ∧ clickable c.
Proof.
  destruct (updateStatus_card_state colliding_page
              {| error := JUndefined; message := JUndefined;
                 payload := [("a b", {| running := JBool true;
                                        port := JNum 8080 |})] |}
              [] [] "a b" {| running := JBool true; port := JNum 8080 |}
              4%nat
              {| card_id := "card-a-b"; card_classes := ["card"];
                 app_name := "a b"; link_href := "#";
                 link_pointerEvents := ""; link_cursor := "";
                 title := "a b"; status_id := "status-a-b";
                 status_text := "Unknown";
                 status_class := ["status"; "status-unknown"];
                 start_classes := ["icon-btn"; "start-btn"];
                 stop_classes := ["icon-btn"; "stop-btn"] |})
    as (c & Hc & _ & Hrun & _).
  - compute_done.
  - reflexivity.
  - compute_done.
  - intros k Hk. simpl in Hk. by apply elem_of_nil in Hk.
  - vm_compute. reflexivity.
  - exists c. split; [exact Hc|].
    destruct (Hrun eq_refl eq_refl) as (Hhref & Hclick & _).
    split; [exact Hhref|exact Hclick].
Defined.

(** C9 fails as stated.  Only the app "a b" is rendered; the status
    response has the single key "a.b".  The name "a b" is not a key of the
    response, yet its card is written: it reads "Run" and its link leads to
    port 8080. *)
Lemma updateStatus_writes_absent_app :
  let data := [("a.b", {| running := JBool true; port := JNum 8080 |})] in
  let w' := updateStatus (json_ok data) single_page in
  wf_dom single_page
  ∧ ("a b" ∉ data.*1)
  ∧ (λ c, (app_name c, status_text c, link_href c)) <$> rendered_cards single_page
    = [("a b", "Unknown", "#")]
  ∧ (λ c, (app_name c, status_text c, link_href c)) <$> rendered_cards w'
    = [("a b", "Run", "http://localhost:8080")]
  ∧ card_at w' 1%nat ≠ card_at single_page 1%nat.
Proof.
  split; [compute_done|]. split; [set_solver|].
  split; [by vm_compute|]. split; [by vm_compute|].
  vm_compute. discriminate.
Qed.

Lemma updateStatus_writes_found_cards_only_witness :
  card_at (updateStatus
             (json_ok [("beta", {| running := JBool true; port := JNum 8080 |})])
             three_page) 13%nat
  = card_at three_page 13%nat.
Proof.
  destruct (card_at three_page 13%nat) as [c|] eqn:Hc; [|by vm_compute in Hc].
  apply (proj2 (proj2 (updateStatus_writes_found_cards_only three_page
           {| error := JUndefined; message := JUndefined;
              payload := [("beta", {| running := JBool true;
                                      port := JNum 8080 |})] |}
           ltac:(compute_done)))
         13%nat c).
  - compute_done.
  - exact Hc.
  - intros k Hk. apply list_elem_of_singleton in Hk as ->.
    vm_compute in Hc. injection Hc as <-. vm_compute. discriminate.
Defined.

(** ** Rendering *)

Lemma alloc_lookup_lt nx ks (h : gmap nat DomNode) n :
  (n < nx)%nat → alloc nx ks h !! n = h !! n.
Proof.
  revert nx h. induction ks as [|k ks IH]; intros nx h Hn; simpl; [done|].
  rewrite IH by lia. apply lookup_insert_ne. lia.
Qed.

Lemma get_alloc nx ks (h : gmap nat DomNode) :
  omap (λ n, alloc nx ks h !! n) (seq nx (length ks)) = ks.
Proof.
  revert nx h. induction ks as [|k ks IH]; intros nx h; csimpl; [done|].
  rewrite alloc_lookup_lt, lookup_insert_eq by lia. f_equal. apply IH.
Qed.

Lemma get_innerHTML_set ks w : get_innerHTML (set_innerHTML ks w) = ks.
Proof. apply get_alloc. Qed.

Lemma rendered_cards_innerHTML w : rendered_cards w = cards_of (get_innerHTML w).
Proof.
  unfold rendered_cards, cards_of, get_innerHTML, card_at.
  induction (app_list w) as [|n l IH]; csimpl; [done|].
  destruct (heap w !! n) as [[s|c|s]|]; csimpl; by rewrite IH.
Qed.

Lemma cards_of_app ks1 ks2 : cards_of (ks1 ++ ks2) = cards_of ks1 ++ cards_of ks2.
Proof. apply omap_app. Qed.

Lemma cards_of_merge_text ks : cards_of (merge_text ks) = cards_of ks.
Proof.
  unfold cards_of. induction ks as [|[s|c|s] ks IH]; csimpl; try done.
  - destruct (merge_text ks) as [|[s'|c'|s'] rest]; csimpl in *; done.
  - by rewrite IH.
Qed.

Lemma Forall_wf_merge_text ks :
  Forall wf_node ks → Forall wf_node (merge_text ks).
Proof.
  induction 1 as [|k ks Hk Hks IH]; simpl; [done|].
  destruct k as [s|c|s]; try by constructor.
  destruct (merge_text ks) as [|[s'|c'|s'] rest]; try by constructor.
  apply Forall_cons in IH as [_ IH]. by constructor.
Qed.

Lemma wf_card_new appName : wf_card (new_card appName).
Proof. unfold wf_card. simpl. split_and!; try done; set_solver. Qed.

Lemma wf_dom_get_innerHTML w : wf_dom w → Forall wf_node (get_innerHTML w).
Proof.
  intros [_ Hall]. unfold get_innerHTML.
  induction Hall as [|n l Hn Hl IH]; csimpl; [done|].
  destruct (heap w !! n); simpl in *; [by constructor|done].
Qed.

Lemma wf_dom_set_innerHTML ks w : Forall wf_node ks → wf_dom (set_innerHTML ks w).
Proof.
  intros Hks. split; simpl; [apply NoDup_seq|].
  generalize (heap w), (next_node w). clear w.
  induction Hks as [|k ks Hk Hks IH]; intros h nx; simpl; [done|].
  constructor; [|apply IH].
  by rewrite alloc_lookup_lt, lookup_insert_eq by lia.
Qed.

(** What the rebuild leaves alone. *)
Lemma set_innerHTML_frame ks w :
  let w' := set_innerHTML ks w in
  message_box w' = message_box w ∧ draggedItem w' = draggedItem w
  ∧ console w' = console w ∧ requests w' = requests w
  ∧ SECRET_PATH w' = SECRET_PATH w ∧ hostname w' = hostname w.
Proof. done. Qed.

Lemma apps_get_truthy (apps : gmap string AppInfo) name :
  entry_truthy (apps_get apps name) = true ↔ has_property apps name.
Proof.
  unfold apps_get, has_property.
  destruct (apps !! name) as [info|] eqn:Hname; simpl.
  - split; [intros _; left; eauto|done].
  - destruct (decide (name ∈ Object_prototype)); simpl.
    + split; [by right|done].
    + split; [done|]. intros [[? ?]|?]; done.
Qed.


Lemma render_loop (apps : gmap string AppInfo) order w :
  let w' := foldl (render_step apps) w order in
  rendered_cards w'
  = rendered_cards w ++ (new_card <$> filter (has_property apps) order)
  ∧ (wf_dom w → wf_dom w')
  ∧ message_box w' = message_box w ∧ draggedItem w' = draggedItem w
  ∧ console w' = console w ∧ requests w' = requests w
  ∧ SECRET_PATH w' = SECRET_PATH w ∧ hostname w' = hostname w.
Proof.
  revert w. induction order as [|name order IH]; intros w; simpl.
  { rewrite ?filter_nil. simpl. rewrite app_nil_r. split_and!; done. }
  destruct (IH (render_step apps w name))
    as (Hc & Hwf & Hmb & Hd & Hco & Hrq & Hs & Hh).
  rewrite Hc, Hmb, Hd, Hco, Hrq, Hs, Hh. unfold render_step in *.
  destruct (entry_truthy (apps_get apps name)) eqn:Hname.
  - rewrite filter_cons_True by (by apply apps_get_truthy).
    split_and!; try done.
    + rewrite (rendered_cards_innerHTML (append_innerHTML _ _)).
      unfold append_innerHTML. rewrite get_innerHTML_set, cards_of_merge_text.
      rewrite cards_of_app, <- rendered_cards_innerHTML.
      by rewrite <- app_assoc.
    + intros Hw. apply Hwf, wf_dom_set_innerHTML, Forall_wf_merge_text.
      apply Forall_app. split; [by apply wf_dom_get_innerHTML|].
      constructor; [done|]. constructor; [apply wf_card_new|]. by constructor.
  - rewrite filter_cons_False
      by (rewrite <- apps_get_truthy; by rewrite Hname).
    split_and!; done.
Qed.

Lemma renderAppList_spec data w :
  let apps_map : gmap string AppInfo := default ∅ (apps data) in
  let order_list := default [] (order data) in
  let w' := renderAppList data w in
  rendered_cards w' = new_card <$> filter (has_property apps_map) order_list
  ∧ (order_list = [] → get_innerHTML w' = [ParagraphNode placeholder])
  ∧ wf_dom w'
  ∧ message_box w' = message_box w ∧ draggedItem w' = draggedItem w
  ∧ console w' = console w ∧ requests w' = requests w
  ∧ SECRET_PATH w' = SECRET_PATH w ∧ hostname w' = hostname w.
Proof.
  simpl. unfold renderAppList.
  destruct (default [] (order data)) as [|name rest] eqn:Horder.
  - simpl. split_and!; try done.
    + by rewrite rendered_cards_innerHTML, get_innerHTML_set.
    + intros _. apply get_innerHTML_set.
    + apply wf_dom_set_innerHTML. by repeat constructor.
  - rewrite decide_False by done.
    pose proof (render_loop (default ∅ (apps data)) (name :: rest)
                  (set_innerHTML [] w))
      as (Hc & Hwf & Hmb & Hd & Hco & Hrq & Hs & Hh).
    unfold render_step in *. split_and!; try done.
    apply Hwf, wf_dom_set_innerHTML. constructor.
Qed.

(** ** updateAppList *)

Lemma card_at_frame w w' n :
  same_frame w w' →
  (λ c, (card_id c, app_name c)) <$> card_at w' n
  = (λ c, (card_id c, app_name c)) <$> card_at w n.
Proof.
  intros (_ & _ & _ & _ & _ & Hs). specialize (Hs n). unfold card_at.
  destruct (heap w !! n) as [[s|c|s]|], (heap w' !! n) as [[s'|c'|s']|];
    simpl in *; try done.
  by injection Hs as -> -> _ _.
Qed.

Lemma omap_frame w w' (l : list nat) :
  same_frame w w' →
  app_name <$> omap (card_at w') l = app_name <$> omap (card_at w) l
  ∧ card_id <$> omap (card_at w') l = card_id <$> omap (card_at w) l
  ∧ skeleton <$> omap (λ n, heap w' !! n) l
    = skeleton <$> omap (λ n, heap w !! n) l.
Proof.
  intros Hf. pose proof Hf as (_ & _ & _ & _ & _ & Hs).
  induction l as [|n l IH]; csimpl; [done|].
  destruct IH as (IH1 & IH2 & IH3).
  pose proof (card_at_frame w w' n Hf) as Hn. specialize (Hs n).
  unfold card_at in *.
  destruct (heap w !! n) as [[s|c|s]|], (heap w' !! n) as [[s'|c'|s']|];
    simpl in *; try done; csimpl; simplify_eq/=; split_and!; try done;
    f_equal; try congruence; first [exact IH1|exact IH2|exact IH3].
Qed.

Lemma rendered_frame w w' :
  same_frame w w' →
  rendered_names w' = rendered_names w
  ∧ card_id <$> rendered_cards w' = card_id <$> rendered_cards w
  ∧ skeleton <$> get_innerHTML w' = skeleton <$> get_innerHTML w.
Proof.
  intros Hf. unfold rendered_names, rendered_cards, get_innerHTML.
  rewrite (proj1 Hf). by apply omap_frame.
Qed.

Lemma new_card_names (l : list string) :
  app_name <$> (new_card <$> l) = l
  ∧ card_id <$> (new_card <$> l) = card_id_of <$> l.
Proof. induction l as [|x l [IH1 IH2]]; csimpl; [done|]. by rewrite IH1, IH2. Qed.

Lemma skeleton_paragraph (ks : list DomNode) p :
  skeleton <$> ks = [ParagraphNode p] → ks = [ParagraphNode p].
Proof. destruct ks as [|[s|c|s] [|k' rest]]; intros Hsk; by simplify_eq/=. Qed.

Lemma updateAppList_ok (body : Body AppsData) statusOut w :
  let apps_map : gmap string AppInfo := default ∅ (apps (payload body)) in
  let order_list := default [] (order (payload body)) in
  let w' := updateAppList (Json true body) statusOut w in
  rendered_names w' = filter (has_property apps_map) order_list
  ∧ card_id <$> rendered_cards w'
    = card_id_of <$> filter (has_property apps_map) order_list
  ∧ (order_list = [] → get_innerHTML w' = [ParagraphNode placeholder])
  ∧ wf_dom w'
  ∧ requests w'
    = requests w ++ [{| endpoint := "/apps"; options := NoOptions |};
                     {| endpoint := "/status"; options := NoOptions |}].
Proof.
  simpl. unfold updateAppList.
  pose proof (apiFetch_dom "/apps" NoOptions (Json true body) w)
    as (_ & _ & _ & _ & _ & Hrq & _).
  rewrite (surjective_pairing (apiFetch "/apps" NoOptions (Json true body) w)).
  rewrite apiFetch_ok.
  set (w0 := (apiFetch "/apps" NoOptions (Json true body) w).1) in *.
  pose proof (renderAppList_spec (payload body) w0)
    as (Hc & Hp & Hwf & _ & _ & _ & Hrq' & _).
  pose proof (updateStatus_frame statusOut (renderAppList (payload body) w0))
    as (Hf & Hrq'' & Hwf').
  destruct (rendered_frame _ _ Hf) as (Hn & Hid & Hsk).
  split_and!.
  - rewrite Hn. unfold rendered_names. rewrite Hc. apply new_card_names.
  - rewrite Hid, Hc. apply new_card_names.
  - intros Ho. rewrite (Hp Ho) in Hsk.
    by apply skeleton_paragraph.
  - auto.
  - rewrite Hrq'', Hrq', Hrq, <- app_assoc. done.
Qed.

Lemma updateAppList_failed appsOut statusOut w :
  failed appsOut = true →
  let w' := updateAppList appsOut statusOut w in
  heap w' = heap w ∧ app_list w' = app_list w
  ∧ requests w' = requests w ++ [{| endpoint := "/apps"; options := NoOptions |}].
Proof.
  intros Hfail. simpl. unfold updateAppList.
  destruct (apiFetch_failed "/apps" NoOptions appsOut w Hfail) as [e He].
  pose proof (apiFetch_dom "/apps" NoOptions appsOut w)
    as (Hh & Hl & _ & _ & _ & Hrq & _).
  destruct (apiFetch "/apps" NoOptions appsOut w) as [w0 r]; simpl in *.
  subst r. simpl. done.
Qed.




(** ** Drag and drop *)

Lemma transpose_involutive x y n : transpose x y (transpose x y n) = n.
Proof.
  unfold transpose.
  repeat (destruct (decide _); simplify_eq/=); try done.
Qed.

Global Instance transpose_inj x y : Inj (=) (=) (transpose x y).
Proof.
  intros a b Hab. rewrite <- (transpose_involutive x y a), Hab.
  apply transpose_involutive.
Qed.

Lemma elem_of_transpose x y (l : list nat) n :
  x ∈ l → y ∈ l → n ∈ transpose x y <$> l → n ∈ l.
Proof.
  intros Hx Hy (m & -> & Hm)%list_elem_of_fmap. unfold transpose.
  repeat (destruct (decide _); simplify_eq/=); done.
Qed.

Lemma skeleton_clear_class k :
  skeleton (on_card (λ c, if decide ("drag-over" ∈ card_classes c)
                          then card_class_remove "drag-over" c else c) k)
  = skeleton k.
Proof.
  destruct k as [s|c|s]; simpl; try done.
  by destruct (decide ("drag-over" ∈ card_classes c)).
Qed.

Lemma wf_node_clear_class k :
  wf_node k →
  wf_node (on_card (λ c, if decide ("drag-over" ∈ card_classes c)
                         then card_class_remove "drag-over" c else c) k).
Proof.
  destruct k as [s|c|s]; simpl; try done.
  destruct (decide ("drag-over" ∈ card_classes c)); [|done].
  unfold wf_card. simpl. intros (? & ? & ? & ?). split_and!; try done.
  unfold classList_remove. apply list_elem_of_filter. by split.
Qed.

Lemma clear_drag_over_frame w :
  let w' := clear_drag_over w in
  same_frame w w'
  ∧ message_box w' = message_box w ∧ console w' = console w
  ∧ requests w' = requests w
  ∧ (wf_dom w → wf_dom w').
Proof.
  unfold clear_drag_over, same_frame. simpl. split_and!; try done.
  - intros m. apply skeleton_foldr_alter, skeleton_clear_class.
  - intros [Hnd Hall]. split; [done|]. simpl.
    rewrite Forall_forall in *. intros n Hn. specialize (Hall n Hn).
    rewrite lookup_foldr_alter, decide_True by done.
    destruct (heap w !! n); simpl in *; [|done]. by apply wf_node_clear_class.
Qed.

Lemma card_order_wf w : wf_dom w → card_order w = rendered_names w.
Proof.
  intros [_ Hall]. unfold card_order, rendered_names, rendered_cards, card_at.
  induction Hall as [|n l Hn Hl IH]; csimpl; [done|].
  destruct (heap w !! n) as [[s|c|s]|]; simpl in *; try done.
  destruct Hn as (_ & _ & _ & Hcard). rewrite decide_True by done.
  csimpl. by rewrite IH.
Qed.

Lemma wf_dom_transpose w x y :
  wf_dom w → x ∈ app_list w → y ∈ app_list w →
  wf_dom (set_app_list (transpose x y <$> app_list w) w).
Proof.
  intros [Hnd Hall] Hx Hy. split; simpl.
  - apply NoDup_fmap; [apply transpose_inj|done].
  - rewrite Forall_forall in *. intros n Hn. apply Hall.
    exact (elem_of_transpose x y _ n Hx Hy Hn).
Qed.

(** The handler on a list that holds both cards: the children become the
    old ones with the two exchanged, and that order is what it sends. *)
Lemma drop_sync_swap w dragged target :
  wf_dom w → draggedItem w = Some dragged →
  dragged ∈ app_list w → target ∈ app_list w → target ≠ dragged →
  let w1 := set_app_list (transpose dragged target <$> app_list w)
                         (clear_drag_over w) in
  drop_sync (Some target) w = (w1, Some (rendered_names w1))
  ∧ wf_dom w1.
Proof.
  intros Hwf Hd Hdin Htin Hne. simpl.
  pose proof (clear_drag_over_frame w) as ((Hl & _) & _ & _ & _ & Hwf0).
  specialize (Hwf0 Hwf).
  assert (wf_dom (set_app_list (transpose dragged target <$> app_list w)
                               (clear_drag_over w))) as Hwf1.
  { rewrite <- Hl. apply wf_dom_transpose; [done|by rewrite Hl..]. }
  split; [|done].
  unfold drop_sync. rewrite Hd. rewrite decide_True by done.
  destruct (swap_children (app_list w) dragged target) as (l1 & H1 & H2);
    [apply Hwf|done|done|done|].
  rewrite Hl, H1, H2. by rewrite card_order_wf.
Qed.

Lemma failed_false {P : Type} (out : Outcome P) :
  failed out = false → ∃ body, out = Json true body.
Proof. destruct out as [msg|ok msg|[] data]; simpl; try done; eauto. Qed.

Lemma updateAppList_requests appsOut statusOut w :
  ∃ rest, requests (updateAppList appsOut statusOut w) = requests w ++ rest.
Proof.
  destruct (failed appsOut) eqn:Hfail.
  - destruct (updateAppList_failed appsOut statusOut w Hfail) as (_ & _ & ->).
    eauto.
  - apply failed_false in Hfail as [body ->].
    destruct (updateAppList_ok body statusOut w) as (_ & _ & _ & _ & ->). eauto.
Qed.

(** C1: on a well-formed list, a drop of the dragged card on another card
    of the list leaves the children of the list as they were with the two
    exchanged: each takes the position of the other and every other node
    stays at its position; no node changes its name.  The order sent to
    save-order is the sequence of names read from the cards in that new
    order, and when the call succeeds the list stays so. *)
Theorem drop_swaps_two_cards w dragged target :
  wf_dom w → draggedItem w = Some dragged →
  dragged ∈ app_list w → target ∈ app_list w → target ≠ dragged →
  ∃ w1, drop_sync (Some target) w = (w1, Some (rendered_names w1))
    ∧ app_list w1 = transpose dragged target <$> app_list w
    ∧ (∀ i n, app_list w !! i = Some n →
         app_list w1 !! i
         = Some (if decide (n = dragged) then target
                 else if decide (n = target) then dragged else n))
    ∧ (∀ n, app_name <$> card_at w1 n = app_name <$> card_at w n)
    ∧ (∀ saveOut appsOut statusOut, ∃ rest,
         requests (drop (Some target) saveOut appsOut statusOut w)
         = requests w ++ save_order_request w (rendered_names w1) :: rest)
    ∧ (∀ body appsOut statusOut,
         app_list (drop (Some target) (Json true body) appsOut statusOut w)
         = app_list w1).
Proof.
  intros Hwf Hd Hdin Htin Hne.
  destruct (drop_sync_swap w dragged target Hwf Hd Hdin Htin Hne) as [Hsync _].
  eexists. split; [exact Hsync|].
  pose proof (clear_drag_over_frame w) as (Hf & _ & _ & Hrq & _).
  split_and!.
  - done.
  - intros i n Hi. simpl. rewrite list_lookup_fmap, Hi. done.
  - intros n. pose proof (card_at_frame w (clear_drag_over w) n Hf) as Hn.
    change (card_at (set_app_list (transpose dragged target <$> app_list w)
                       (clear_drag_over w)) n)
      with (card_at (clear_drag_over w) n).
    destruct (card_at w n), (card_at (clear_drag_over w) n);
      simplify_eq/=; congruence.
  - intros saveOut appsOut statusOut. unfold drop. rewrite Hsync.
    set (w1 := set_app_list _ _).
    pose proof (apiFetch_dom ("/" +:+ SECRET_PATH w1 +:+ "/save-order")
                  (PostOrder (rendered_names w1)) saveOut w1)
      as (_ & _ & _ & _ & _ & Hrq1 & _).
    destruct (apiFetch _ _ saveOut w1) as [w2 [e|data]]; simpl in Hrq1 |- *.
    + destruct (updateAppList_requests appsOut statusOut
                  (console_error ("Failed to save new order: " +:+ err_message e) w2))
        as [rest ->].
      simpl. rewrite Hrq1. simpl. rewrite <- app_assoc. eauto.
    + rewrite Hrq1. simpl. eauto.
  - intros body appsOut statusOut. unfold drop. rewrite Hsync.
    set (w1 := set_app_list _ _).
    pose proof (apiFetch_dom ("/" +:+ SECRET_PATH w1 +:+ "/save-order")
                  (PostOrder (rendered_names w1)) (Json true body) w1)
      as (_ & Hl1 & _).
    rewrite (surjective_pairing (apiFetch _ _ (Json true body) w1)).
    by rewrite apiFetch_ok.
Qed.





Lemma drop_swaps_two_cards_witness :
  ∃ w1, drop_sync (Some 13%nat) dragging_page = (w1, Some (rendered_names w1))
      ∧ app_list w1 = transpose 9%nat 13%nat <$> app_list dragging_page.
Proof.
  destruct (drop_swaps_two_cards dragging_page 9%nat 13%nat
              ltac:(compute_done) eq_refl ltac:(compute_done)
              ltac:(compute_done) ltac:(compute_done))
    as (w1 & Hsync & Hl & _).
  exists w1. split; [exact Hsync|exact Hl].
Defined.

Lemma updateStatus_failure_all_unknown_witness :
  Forall status_unknown
    (rendered_cards (updateStatus (NetworkFailure "offline") running_page)).
Proof.
  apply (proj1 (proj2 (proj2 (updateStatus_failure_all_unknown
           (NetworkFailure "offline") running_page
           ltac:(compute_done) eq_refl)))).
Defined.

(** C8 fails as stated.  On the page of "a b" and "a.b" the response
    reports "a b" running with the port 0 and "a.b" running on port 8080.
    Both keys reach the card of "a b": after the poll its link is
    clickable and leads to port 8080, although the app is reported
    running with a falsy port. *)
Lemma updateStatus_falsy_port_overridden :
  let w' := updateStatus (json_ok colliding_ports) colliding_page in
  wf_dom colliding_page
  ∧ rendered_names colliding_page = ["a b"; "a.b"]
  ∧ data_get "a b" colliding_ports
    = Some {| running := JBool true; port := JNum 0 |}
  ∧ ∃ c, card_at w' 4%nat = Some c
       ∧ app_name c = "a b"
       ∧ link_href c = "http://localhost:8080"
       ∧ clickable c
       ∧ ¬ non_interactive c.
Proof.
  split; [compute_done|]. split; [by vm_compute|]. split; [by vm_compute|].
  eexists. split; [by vm_compute|]. split_and!; try done.
  by intros [? ?].
Qed.

Lemma updateStatus_falsy_port_as_absent_witness :
  ∃ c, card_at
         (updateStatus
            (Json true {| error := JUndefined; message := JUndefined;
                          payload := [] ++ ("beta", {| running := JBool true;
                                                       port := JNum 0 |})
                                        :: [] |})
            running_page) 11%nat = Some c
     ∧ non_interactive c
     ∧ status_text c = "Run"
     ∧ link_href c = "http://localhost:8080".
Proof.
  destruct (card_at running_page 11%nat) as [c0|] eqn:Hc0;
    [|by vm_compute in Hc0].
  destruct (proj2 (updateStatus_falsy_port_as_absent running_page JUndefined
                     JUndefined [] [] "beta" (JBool true) (JNum 0)
                     eq_refl eq_refl) 11%nat c0)
    as (c & Hc & _ & Hni & Hrun & Hhref).
  - compute_done.
  - compute_done.
  - intros k Hk. by apply elem_of_nil in Hk.
  - vm_compute in Hc0. injection Hc0 as <-. by vm_compute.
  - exists c. split; [exact Hc|]. split; [exact Hni|]. split; [exact Hrun|].
    destruct Hhref as [Hhref _].
    + intros k Hk. by apply elem_of_nil in Hk.
    + rewrite Hhref. vm_compute in Hc0. by injection Hc0 as <-.
Defined.

(** *** The other handlers keep the list well formed *)

Lemma wf_dom_alter_card (f : Card → Card) n w :
  (∀ c, wf_card c → wf_card (f c)) →
  wf_dom w → wf_dom (set_heap (alter (on_card f) n (heap w)) w).
Proof.
  intros Hf [Hnd Hall]. split; [done|]. simpl.
  eapply Forall_impl; [exact Hall|]. intros m Hm. simpl in *.
  rewrite lookup_alter. destruct (decide (n = m)) as [->|]; [|done].
  destruct (heap w !! m) as [[s|c|s]|]; simpl in *; auto.
Qed.

Lemma wf_card_class_add cls c : wf_card c → wf_card (card_class_add cls c).
Proof.
  unfold wf_card, card_class_add, classList_add. simpl.
  intros (? & ? & ? & ?). split_and!; try done.
  destruct (decide (cls ∈ card_classes c)); set_solver.
Qed.

Lemma wf_card_class_remove cls c :
  cls ≠ "card" → wf_card c → wf_card (card_class_remove cls c).
Proof.
  unfold wf_card, card_class_remove, classList_remove. simpl.
  intros Hne (? & ? & ? & ?). split_and!; try done.
  apply list_elem_of_filter. split; [congruence|done].
Qed.

Lemma drag_handlers_wf w targetCard :
  wf_dom w →
  wf_dom (dragstart targetCard w) ∧ wf_dom (dragover targetCard w)
  ∧ wf_dom (dragleave targetCard w) ∧ wf_dom (dragend w).
Proof.
  intros Hwf.
  pose proof (clear_drag_over_frame w) as (_ & _ & _ & _ & Hclear).
  split_and!.
  - by destruct targetCard.
  - unfold dragover. destruct targetCard as [t|]; [|auto].
    destruct (decide _); [|auto].
    apply wf_dom_alter_card; [intros c; apply wf_card_class_add|auto].
  - unfold dragleave. destruct targetCard as [t|]; [|done].
    apply wf_dom_alter_card; [|done].
    intros c. by apply wf_card_class_remove.
  - unfold dragend.
    pose proof (clear_drag_over_frame
                  match draggedItem w with
                  | Some d =>
                      set_heap (alter (on_card (card_class_remove "dragging"))
                                      d (heap w)) w
                  | None => w
                  end) as (_ & _ & _ & _ & Hclear').
    destruct (draggedItem w) as [d|]; [|by apply Hclear'].
    apply Hclear'. apply wf_dom_alter_card; [|done].
    intros c. by apply wf_card_class_remove.
Qed.

(** ** deleteApp *)

(** C10: when the user declines the prompt, [deleteApp] leaves the whole
    page state as it was: no call is added to the log of requests, and the
    list, the nodes, the message box and the console are unchanged.  (When
    the user accepts, the POST to the delete endpoint is the next call in
    the log.) *)
Theorem deleteApp_declined appName out appsOut statusOut w :
  let w' := deleteApp false appName out appsOut statusOut w in
  w' = w
  ∧ requests w' = requests w
  ∧ message_box w' = message_box w
  ∧ app_list w' = app_list w ∧ heap w' = heap w
  ∧ console w' = console w
  ∧ ∃ rest,
      requests (deleteApp true appName out appsOut statusOut w)
      = requests w
        ++ {| endpoint := "/" +:+ SECRET_PATH w +:+ "/delete/" +:+ appName;
              options := Post |} :: rest.
Proof.
  simpl. split_and!; try done. unfold deleteApp. simpl.
  pose proof (apiFetch_dom ("/" +:+ SECRET_PATH w +:+ "/delete/" +:+ appName)
                Post out w) as (_ & _ & _ & _ & _ & Hrq & _).
  destruct (apiFetch _ Post out w) as [w0 [e|data]]; simpl in Hrq |- *.
  - rewrite Hrq. eauto.
  - destruct (failed appsOut) eqn:Hfail.
    + destruct (updateAppList_failed appsOut statusOut w0 Hfail) as (_ & _ & ->).
      rewrite Hrq, <- app_assoc. eauto.
    + destruct appsOut as [msg|ok msg|[] body]; try done.
      destruct (updateAppList_ok body statusOut w0) as (_ & _ & _ & _ & ->).
      rewrite Hrq, <- app_assoc. eauto.
Qed.

(** * Further properties of the code *)

(** ** sanitizeForId *)

Lemma sanitizeChar_id_char c : id_char (sanitizeChar c) = true.
Proof. unfold sanitizeChar. by destruct (id_char c) eqn:Hc. Qed.

(** X1: the result of [sanitizeForId] is written with characters of the
    class only and is as long as the name; sanitizing leaves a name
    unchanged exactly when the name is already written so, and sanitizing
    twice is sanitizing once. *)
Theorem sanitizeForId_in_class s :
  all_id_chars (sanitizeForId s) = true
  ∧ String.length (sanitizeForId s) = String.length s
  ∧ (sanitizeForId s = s ↔ all_id_chars s = true)
  ∧ sanitizeForId (sanitizeForId s) = sanitizeForId s.
Proof.
  assert (all_id_chars (sanitizeForId s) = true) as Hclass.
  { induction s as [|c s IH]; simpl; [done|].
    by rewrite sanitizeChar_id_char, IH. }
  split_and!; [done|apply sanitizeForId_length| |apply sanitizeForId_idempotent].
  split; [|apply sanitizeForId_id_chars]. intros Heq. by rewrite <- Heq.
Qed.

(** ** apiFetch *)

(** X2: after a call the message box is visible exactly when the call
    failed or the body carried a truthy [message]; it then shows that
    message.  A success without message hides the box and leaves its old
    text in place.  The call adds one entry to the log of requests and
    touches nothing else of the page. *)
Theorem apiFetch_notice {P : Type} ep opts (out : Outcome P) w :
  let w' := (apiFetch ep opts out w).1 in
  (display (message_box w') = "block"
   ↔ failed out = true
     ∨ ∃ data, out = Json true data ∧ truthy (message data) = true)
  ∧ (display (message_box w') = "block" ∨ display (message_box w') = "none")
  ∧ (∀ data, out = Json true data →
       message_box w'
       = if truthy (message data)
         then {| textContent := toString (message data); display := "block" |}
         else {| textContent := textContent (message_box w);
                 display := "none" |})
  ∧ heap w' = heap w ∧ app_list w' = app_list w
  ∧ draggedItem w' = draggedItem w ∧ console w' = console w
  ∧ requests w' = requests w ++ [{| endpoint := ep; options := opts |}].
Proof.
  simpl. destruct out as [msg|ok msg|[] data]; simpl.
  - split_and!; try done; auto. split; auto.
  - split_and!; try done; auto. split; auto.
  - destruct (truthy (message data)) eqn:Hm; simpl.
    + split_and!; try done; auto.
      * split; eauto.
      * intros data' [= <-]. by rewrite Hm.
    + split_and!; try done; auto.
      * split; [done|]. intros [?|(data' & [= <-] & ?)]; congruence.
      * intros data' [= <-]. by rewrite Hm.
  - split_and!; try done; auto. split; auto.
Qed.

Lemma apiFetch_notice_witness :
  message_box
    (apiFetch (P := unit) "/s/stop/app" Post
       (Json true {| error := JUndefined; message := JStr "Stopped";
                     payload := () |})
       (initial_world "s" "localhost")).1
  = {| textContent := "Stopped"; display := "block" |}.
Proof.
  apply (proj1 (proj2 (proj2 (apiFetch_notice (P := unit) "/s/stop/app" Post
           (Json true {| error := JUndefined; message := JStr "Stopped";
                         payload := () |})
           (initial_world "s" "localhost")))) _ eq_refl).
Defined.

(** ** controlApp *)

(** X3: [controlApp] makes one POST to [/<secret>/<action>/<name>].  When
    the call fails it logs one line and leaves every node and the list as
    they were, without polling the status; when it succeeds the status
    poll is the next and only further call.  The children of the list are
    the same either way. *)
Theorem controlApp_effects appName action out statusOut w :
  let w' := controlApp appName action out statusOut w in
  let post := {| endpoint := "/" +:+ SECRET_PATH w +:+ "/" +:+ action
                             +:+ "/" +:+ appName;
                 options := Post |} in
  app_list w' = app_list w
  ∧ (failed out = true →
     heap w' = heap w
     ∧ requests w' = requests w ++ [post]
     ∧ console w'
       = console w ++ ["Failed to " +:+ action +:+ " " +:+ appName])
  ∧ (failed out = false →
     requests w'
     = requests w ++ [post; {| endpoint := "/status"; options := NoOptions |}]
     ∧ rendered_names w' = rendered_names w).
Proof.
  simpl. unfold controlApp.
  set (url := "/" +:+ SECRET_PATH w +:+ "/" +:+ action +:+ "/" +:+ appName).
  pose proof (apiFetch_dom url Post out w) as (Hh & Hl & _ & _ & Hco & Hrq & _).
  pose proof (apiFetch_frame url Post out w) as (Hf & _).
  destruct (failed out) eqn:Hfail.
  - destruct (apiFetch_failed url Post out w Hfail) as [e He].
    destruct (apiFetch url Post out w) as [w0 r]; simpl in *. subst r.
    split_and!; [done| |done]. intros _. simpl. by rewrite Hh, Hrq, Hco.
  - apply failed_false in Hfail as [body ->].
    rewrite (surjective_pairing (apiFetch url Post (Json true body) w)).
    rewrite apiFetch_ok.
    pose proof (updateStatus_frame statusOut
                  (apiFetch url Post (Json true body) w).1) as (Hf' & Hrq' & _).
    split_and!; [by rewrite (proj1 Hf')|done|]. intros _. split.
    + by rewrite Hrq', Hrq, <- app_assoc.
    + rewrite (proj1 (rendered_frame _ _ Hf')).
      apply (proj1 (rendered_frame _ _ Hf)).
Qed.

Lemma controlApp_effects_witness :
  requests (controlApp "beta" "start" (NetworkFailure "offline")
              (json_ok []) (initial_world "secret" "localhost"))
  = [{| endpoint := "/secret/start/beta"; options := Post |}].
Proof.
  apply (proj1 (proj2 (proj1 (proj2 (controlApp_effects "beta" "start"
           (NetworkFailure "offline") (json_ok [])
           (initial_world "secret" "localhost"))) eq_refl))).
Defined.

(** ** deleteApp, once confirmed *)

(** X4: a confirmed delete makes one POST to [/<secret>/delete/<name>].
    When that call fails, a line is logged and the list is not reloaded:
    every node and the children are as before.  When it succeeds the list
    is reloaded: with a successful GET /apps whose [order] holds plain
    names, the rendered names are those of [order] at which [apps] has a
    truthy entry; should GET /apps fail, the list stays as it was, the
    deleted app's card included. *)
Theorem deleteApp_confirmed appName out appsOut statusOut w :
  let w' := deleteApp true appName out appsOut statusOut w in
  let post := {| endpoint := "/" +:+ SECRET_PATH w +:+ "/delete/" +:+ appName;
                 options := Post |} in
  (failed out = true →
     heap w' = heap w ∧ app_list w' = app_list w
     ∧ requests w' = requests w ++ [post]
     ∧ console w' = console w ++ ["Failed to delete " +:+ appName])
  ∧ (failed out = false →
     (∀ body, appsOut = Json true body →
        (Forall (λ name, plain_name name = true)
                (default [] (order (payload body))) →
         rendered_names w'
         = filter (has_property (default ∅ (apps (payload body))))
                  (default [] (order (payload body))))
        ∧ requests w'
          = requests w
            ++ [post; {| endpoint := "/apps"; options := NoOptions |};
                {| endpoint := "/status"; options := NoOptions |}])
     ∧ (failed appsOut = true →
        heap w' = heap w ∧ app_list w' = app_list w
        ∧ requests w'
          = requests w
            ++ [post; {| endpoint := "/apps"; options := NoOptions |}])).
Proof.
  simpl. unfold deleteApp. simpl.
  set (url := "/" +:+ SECRET_PATH w +:+ "/delete/" +:+ appName).
  pose proof (apiFetch_dom url Post out w) as (Hh & Hl & _ & _ & Hco & Hrq & _).
  destruct (failed out) eqn:Hfail.
  - destruct (apiFetch_failed url Post out w Hfail) as [e He].
    destruct (apiFetch url Post out w) as [w0 r]; simpl in *. subst r.
    split; [|done]. intros _. simpl. by rewrite Hh, Hl, Hrq, Hco.
  - apply failed_false in Hfail as [body0 ->].
    rewrite (surjective_pairing (apiFetch url Post (Json true body0) w)).
    rewrite apiFetch_ok. split; [done|]. intros _. split.
    + intros body ->.
      destruct (updateAppList_ok body statusOut
                  (apiFetch url Post (Json true body0) w).1)
        as (Hn & _ & _ & _ & Hrq').
      split; [intros _; exact Hn|]. by rewrite Hrq', Hrq, <- app_assoc.
    + intros Hfail'.
      destruct (updateAppList_failed appsOut statusOut
                  (apiFetch url Post (Json true body0) w).1 Hfail')
        as (Hh' & Hl' & Hrq').
      split_and!; [congruence|congruence|].
      by rewrite Hrq', Hrq, <- app_assoc.
Qed.

Lemma deleteApp_confirmed_witness :
  app_list (deleteApp true "beta" (NetworkFailure "offline")
              (json_ok three_apps) (json_ok []) three_page)
  = app_list three_page
  ∧ rendered_names (deleteApp true "beta" (json_ok ())
                      (json_ok stale_order_apps) (json_ok []) three_page)
    = ["gamma"; "alpha"].
Proof.
  split.
  - apply (proj1 (proj2 (proj1 (deleteApp_confirmed "beta"
             (NetworkFailure "offline") (json_ok three_apps) (json_ok [])
             three_page) eq_refl))).
  - etrans.
    + apply (proj1 (proj1 (proj2 (deleteApp_confirmed "beta"
               (json_ok ()) (json_ok stale_order_apps) (json_ok [])
               three_page) eq_refl) _ eq_refl) ltac:(compute_done)).
    + by vm_compute.
Defined.

(** ** updateAppList *)

(** X5: when GET /apps fails, [updateAppList] keeps the list it has (no
    node is created, none is changed), logs one line with the error's
    message, and does not poll the status: the call to /apps is the only
    one it makes. *)
Theorem updateAppList_fetch_failed appsOut statusOut w :
  failed appsOut = true →
  let w' := updateAppList appsOut statusOut w in
  heap w' = heap w ∧ app_list w' = app_list w ∧ next_node w' = next_node w
  ∧ requests w' = requests w ++ [{| endpoint := "/apps"; options := NoOptions |}]
  ∧ ∃ e, (apiFetch "/apps" NoOptions appsOut w).2 = inl e
       ∧ console w'
         = console w ++ ["Failed to update app list: " +:+ err_message e].
Proof.
  intros Hfail. simpl. unfold updateAppList.
  destruct (apiFetch_failed "/apps" NoOptions appsOut w Hfail) as [e He].
  pose proof (apiFetch_dom "/apps" NoOptions appsOut w)
    as (Hh & Hl & Hn & _ & Hco & Hrq & _).
  destruct (apiFetch "/apps" NoOptions appsOut w) as [w0 r]; simpl in *.
  subst r. simpl. split_and!; try done. exists e. by rewrite Hco.
Qed.

Lemma updateAppList_fetch_failed_witness :
  app_list (updateAppList (NotJson true "Unexpected token") (json_ok [])
              three_page)
  = app_list three_page.
Proof.
  apply (proj1 (proj2 (updateAppList_fetch_failed
           (NotJson true "Unexpected token") (json_ok []) three_page
           eq_refl))).
Defined.

Lemma render_loop_absent (apps : gmap string AppInfo) order w :
  (∀ name, name ∈ order → ¬ has_property apps name) →
  foldl (render_step apps) w order = w.
Proof.
  revert w. induction order as [|name order IH]; intros w Hnone; simpl; [done|].
  unfold render_step at 2.
  destruct (entry_truthy (apps_get apps name)) eqn:Hname.
  - apply apps_get_truthy in Hname. destruct (Hnone name); [set_solver|done].
  - apply IH. intros ? ?. apply Hnone. set_solver.
Qed.

(** X6: when [order] is not empty but [apps] has a truthy entry at none of
    its names (none is a key of [apps], none a name that every object
    inherits), the rebuilt list is empty: no card, and no placeholder
    either. *)
Theorem updateAppList_no_known_name (body : Body AppsData) statusOut w :
  default [] (order (payload body)) ≠ [] →
  (∀ name, name ∈ default [] (order (payload body)) →
           default ∅ (apps (payload body)) !! name = None
           ∧ name ∉ Object_prototype) →
  app_list (updateAppList (Json true body) statusOut w) = [].
Proof.
  intros Hne Hnone. unfold updateAppList.
  rewrite (surjective_pairing (apiFetch "/apps" NoOptions (Json true body) w)).
  rewrite apiFetch_ok.
  pose proof (updateStatus_frame statusOut
                (renderAppList (payload body)
                   (apiFetch "/apps" NoOptions (Json true body) w).1))
    as ((Hl & _) & _).
  rewrite Hl. unfold renderAppList.
  destruct (default [] (order (payload body))) as [|name rest] eqn:Horder;
    [done|].
  rewrite decide_False by done. rewrite render_loop_absent; [done|].
  intros name' Hin [Hkey|Hproto]; destruct (Hnone name' Hin) as [Hk Hp];
    [rewrite Hk in Hkey; by destruct Hkey|done].
Qed.

Lemma updateAppList_no_known_name_witness :
  app_list (updateAppList
              (json_ok {| apps := Some ∅; order := Some ["ghost"] |})
              (json_ok []) three_page) = [].
Proof.
  apply (updateAppList_no_known_name
           {| error := JUndefined; message := JUndefined;
              payload := {| apps := Some ∅; order := Some ["ghost"] |} |}
           (json_ok []) three_page).
  - discriminate.
  - intros name Hname. simpl in *.
    apply list_elem_of_singleton in Hname as ->.
    split; [by rewrite lookup_empty|compute_done].
Defined.

(** *** New nodes *)

Lemma render_loop_range (apps : gmap string AppInfo) order lo w :
  (lo ≤ next_node w)%nat →
  (∀ n, n ∈ app_list w → (lo ≤ n < next_node w)%nat) →
  let w' := foldl (render_step apps) w order in
  (lo ≤ next_node w')%nat
  ∧ ∀ n, n ∈ app_list w' → (lo ≤ n < next_node w')%nat.
Proof.
  revert w. induction order as [|name order IH]; intros w Hlo Hin; simpl;
    [done|].
  apply IH; unfold render_step;
    destruct (entry_truthy (apps_get apps name)); try done.
  - simpl. lia.
  - simpl. intros n Hn%elem_of_seq. lia.
Qed.

(** X7: a successful reload makes the whole list out of new nodes: every
    child of the rebuilt list is a node created by this reload.  The
    variable [draggedItem] is not reset, so a card picked up before the
    reload is still the dragged item afterwards but no longer a child of
    the list. *)
Theorem updateAppList_new_nodes (body : Body AppsData) statusOut w :
  let w' := updateAppList (Json true body) statusOut w in
  (∀ n, n ∈ app_list w' → (next_node w ≤ n < next_node w')%nat)
  ∧ draggedItem w' = draggedItem w
  ∧ ∀ d, draggedItem w = Some d → (d < next_node w)%nat →
         draggedItem w' = Some d ∧ d ∉ app_list w'.
Proof.
  simpl.
  assert ((∀ n, n ∈ app_list (updateAppList (Json true body) statusOut w) →
             (next_node w ≤ n
              < next_node (updateAppList (Json true body) statusOut w))%nat)
          ∧ draggedItem (updateAppList (Json true body) statusOut w)
            = draggedItem w) as [Hrange Hd].
  { unfold updateAppList.
    pose proof (apiFetch_dom "/apps" NoOptions (Json true body) w)
      as (_ & _ & Hnx & Hd0 & _).
    rewrite (surjective_pairing (apiFetch "/apps" NoOptions (Json true body) w)).
    rewrite apiFetch_ok.
    set (w0 := (apiFetch "/apps" NoOptions (Json true body) w).1) in *.
    pose proof (updateStatus_frame statusOut (renderAppList (payload body) w0))
      as ((Hl & Hnx' & Hd' & _) & _).
    pose proof (renderAppList_spec (payload body) w0)
      as (_ & _ & _ & _ & Hd'' & _).
    rewrite Hl, Hnx', Hd', Hd'', Hd0, <- Hnx. split; [|done].
    unfold renderAppList.
    destruct (decide (length (default [] (order (payload body))) = 0%nat))
      as [Hempty|Hfull].
    - simpl. intros n Hn. apply list_elem_of_singleton in Hn as ->. lia.
    - apply (render_loop_range _ _ (next_node w0) (set_innerHTML [] w0)).
      + simpl. lia.
      + simpl. by intros m Hm%elem_of_nil. }
  split_and!; [done|done|].
  intros d Hdrag Hold. split; [congruence|].
  intros Hin%Hrange. lia.
Qed.

Lemma updateAppList_new_nodes_witness :
  draggedItem (updateAppList (json_ok three_apps) (json_ok []) dragging_page)
  = Some 9%nat
  ∧ 9%nat ∉ app_list (updateAppList (json_ok three_apps) (json_ok [])
                        dragging_page).
Proof.
  apply (proj2 (proj2 (updateAppList_new_nodes
           {| error := JUndefined; message := JUndefined;
              payload := three_apps |} (json_ok []) dragging_page))
         9%nat eq_refl).
  vm_compute. lia.
Defined.

(** ** Polling *)

(** X8: whatever the outcomes of the status calls, any number of polls
    leaves the children of the list, their names and the dragged item as
    they are and creates no node: the poller patches cards in place.  It
    keeps the list well formed and makes exactly one call to /status per
    tick. *)
Theorem poll_keeps_list outs w :
  let w' := poll outs w in
  app_list w' = app_list w
  ∧ rendered_names w' = rendered_names w
  ∧ next_node w' = next_node w
  ∧ draggedItem w' = draggedItem w
  ∧ (wf_dom w → wf_dom w')
  ∧ requests w'
    = requests w
      ++ replicate (length outs)
           {| endpoint := "/status"; options := NoOptions |}.
Proof.
  simpl. unfold poll. revert w.
  induction outs as [|out outs IH]; intros w; simpl.
  { rewrite app_nil_r. split_and!; done. }
  destruct (IH (updateStatus out w)) as (Hl & Hn & Hnx & Hd & Hwf & Hrq).
  pose proof (updateStatus_frame out w) as (Hf & Hrq' & Hwf').
  pose proof Hf as (Hl' & Hnx' & Hd' & _).
  rewrite Hl, Hn, Hnx, Hd, Hrq, Hrq', <- app_assoc.
  split_and!; try done; auto.
  apply (proj1 (rendered_frame _ _ Hf)).
Qed.

Lemma poll_keeps_list_witness :
  wf_dom (poll [NetworkFailure "offline"; json_ok []] three_page).
Proof.
  apply (proj1 (proj2 (proj2 (proj2 (proj2 (poll_keeps_list
           [NetworkFailure "offline"; json_ok []] three_page)))))).
  compute_done.
Defined.

Lemma forEach_status_no_card data keys w :
  (∀ k, k ∈ keys → getElementById (card_id_of k) w = None) →
  forEach_status data keys w = (w, true).
Proof.
  induction keys as [|k keys IH]; intros Hnone; simpl; [done|].
  unfold statusEntry. fold (card_id_of k). rewrite Hnone by set_solver.
  apply IH. intros ? ?. apply Hnone. set_solver.
Qed.

(** X9: a successful status response none of whose keys finds a card (the
    list is not loaded yet, or the apps are gone from it) changes no node
    and raises nothing; this holds in particular for every response while
    the list is empty. *)
Theorem updateStatus_no_card (body : Body StatusData) w :
  let w' := updateStatus (Json true body) w in
  ((∀ k, k ∈ (payload body).*1 → getElementById (card_id_of k) w = None) →
   heap w' = heap w ∧ app_list w' = app_list w ∧ console w' = console w)
  ∧ (app_list w = [] →
     heap w' = heap w ∧ app_list w' = app_list w ∧ console w' = console w).
Proof.
  simpl.
  assert ((∀ k, k ∈ (payload body).*1 →
             getElementById (card_id_of k) w = None) →
          heap (updateStatus (Json true body) w) = heap w
          ∧ app_list (updateStatus (Json true body) w) = app_list w
          ∧ console (updateStatus (Json true body) w) = console w) as Hmain.
  { intros Hnone. unfold updateStatus.
    pose proof (apiFetch_dom "/status" NoOptions (Json true body) w)
      as (Hh & Hl & _ & _ & Hco & _).
    rewrite (surjective_pairing (apiFetch "/status" NoOptions (Json true body) w)).
    rewrite apiFetch_ok.
    rewrite forEach_status_no_card; [done|].
    intros k Hk. unfold getElementById. rewrite Hh, Hl. by apply Hnone. }
  split; [done|]. intros Hempty. apply Hmain.
  intros k _. unfold getElementById. by rewrite Hempty.
Qed.

Lemma updateStatus_no_card_witness :
  heap (updateStatus
          (json_ok [("delta", {| running := JBool true; port := JNum 80 |})])
          three_page)
  = heap three_page.
Proof.
  apply (proj1 (updateStatus_no_card
           {| error := JUndefined; message := JUndefined;
              payload := [("delta", {| running := JBool true;
                                       port := JNum 80 |})] |} three_page)).
  intros k Hk. apply list_elem_of_singleton in Hk as ->. by vm_compute.
Defined.

(** *** Buttons and status text *)

Lemma foldr_alter_invariant (R : DomNode → Prop) (f : DomNode → DomNode)
    (h : gmap nat DomNode) (l : list nat) n k :
  (∀ k, R k → R (f k)) →
  (∀ k, h !! n = Some k → R k) →
  foldr (alter f) h l !! n = Some k → R k.
Proof.
  intros Hf. revert k. induction l as [|m l IH]; intros k Hh; simpl; [auto|].
  rewrite lookup_alter. destruct (decide (m = n)) as [->|]; [|auto].
  destruct (foldr (alter f) h l !! n) as [k'|] eqn:Hk'; simpl; [|done].
  intros [= <-]. auto.
Qed.

Lemma all_cards_rendered (Q : Card → Prop) w :
  all_cards Q w ↔ Forall Q (rendered_cards w).
Proof.
  unfold all_cards, rendered_cards.
  induction (app_list w) as [|m l IH]; csimpl.
  - split; [constructor|]. by intros _ n c Hn%elem_of_nil.
  - split.
    + intros Hall.
      assert (Forall Q (omap (card_at w) l)) as Hl
        by (apply IH; intros n c Hn; apply Hall; set_solver).
      destruct (card_at w m) as [c|] eqn:Hm; [|done].
      constructor; [|done]. apply (Hall m); [set_solver|done].
    + intros Hall n c [->|Hn]%elem_of_cons Hc.
      * rewrite Hc in Hall. by apply Forall_cons in Hall as [? _].
      * apply (proj2 IH) with n; [|done..].
        destruct (card_at w m); [by apply Forall_cons in Hall as [_ ?]|done].
Qed.

Section card_invariant.
Variable Q : Card → Prop.
Hypothesis Q_applyStatus : ∀ host a c, Q c → Q (applyStatus host a c).
Hypothesis Q_set_unknown : ∀ c, Q c → Q (set_unknown c).

Lemma statusEntry_all_cards data k w w' :
  statusEntry data k w = Some w' → all_cards Q w → all_cards Q w'.
Proof.
  unfold statusEntry. fold (card_id_of k).
  destruct (getElementById (card_id_of k) w) as [[n card]|] eqn:Hfind.
  2:{ by intros [= <-]. }
  destruct (data_get k data) as [a|]; [|done].
  destruct (decide _); [|done]. intros [= <-] Hall m c Hm. simpl in Hm.
  apply find_card_Some in Hfind as (Hn & Hcard & _).
  unfold card_at. simpl. destruct (decide (n = m)) as [<-|Hne].
  - rewrite lookup_insert_eq. intros [= <-]. apply Q_applyStatus.
    apply (Hall n); [done|]. unfold card_at. by rewrite Hcard.
  - rewrite lookup_insert_ne by done. by apply Hall.
Qed.

Lemma forEach_status_all_cards data keys w :
  all_cards Q w → all_cards Q (forEach_status data keys w).1.
Proof.
  revert w. induction keys as [|k keys IH]; intros w Hall; simpl; [done|].
  destruct (statusEntry data k w) as [w1|] eqn:Hk; [|done].
  apply IH. by eapply statusEntry_all_cards.
Qed.

Lemma updateStatus_catch_all_cards e w :
  all_cards Q w → all_cards Q (updateStatus_catch e w).
Proof.
  intros Hall n c Hn. unfold card_at, updateStatus_catch. simpl in *.
  destruct (foldr _ _ _ !! n) as [k|] eqn:Hk; [|done].
  pose proof (foldr_alter_invariant
                (λ k, match k with CardNode c => Q c | _ => True end)
                mark_unknown (heap w) (app_list w) n k) as Hinv.
  intros Hc. destruct k as [s|c'|s]; try done. injection Hc as ->.
  apply Hinv; [| |done].
  - intros [s|c0|s]; simpl; try done.
    destruct (decide _); simpl; auto.
  - intros [s|c0|s] Hh; try done. apply (Hall n); [done|].
    unfold card_at. by rewrite Hh.
Qed.

Lemma updateStatus_all_cards out w :
  all_cards Q w → all_cards Q (updateStatus out w).
Proof.
  intros Hall. unfold updateStatus.
  pose proof (apiFetch_dom "/status" NoOptions out w) as (Hh & Hl & _).
  assert (all_cards Q (apiFetch "/status" NoOptions out w).1) as Hall0.
  { intros n c. unfold card_at. rewrite Hh, Hl. apply Hall. }
  destruct (apiFetch "/status" NoOptions out w) as [w0 [e|data]]; simpl in *.
  - by apply updateStatus_catch_all_cards.
  - pose proof (forEach_status_all_cards (payload data) (payload data).*1
                  w0 Hall0) as Hall1.
    destruct (forEach_status _ _ w0) as [w1 []]; simpl in *; [done|].
    by apply updateStatus_catch_all_cards.
Qed.

Lemma poll_all_cards outs w : all_cards Q w → all_cards Q (poll outs w).
Proof.
  unfold poll. revert w. induction outs as [|out outs IH]; intros w Hall;
    simpl; [done|].
  by apply IH, updateStatus_all_cards.
Qed.
End card_invariant.

Lemma buttons_match_applyStatus host a c :
  buttons_match_status (applyStatus host a c).
Proof.
  unfold buttons_match_status, applyStatus, non_interactive, classList_add,
    classList_remove.
  destruct (truthy (running a)); simpl; split; try done; intros _.
  - split.
    + destruct (decide ("disabled" ∈ start_classes c)); set_solver.
    + destruct (decide ("active" ∈ stop_classes c)); set_solver.
  - split_and!; try done; intros [Hne _]%list_elem_of_filter; by apply Hne.
Qed.

(** X10: once the list is loaded, and after any number of polls whatever
    their outcomes, the buttons of every card agree with its status text:
    a card that reads "Run" has its start button disabled and its stop
    button active, and one that reads "Stop" has neither, with an inert
    link to "#". *)
Theorem load_and_poll_buttons (body : Body AppsData) statusOut outs w :
  Forall buttons_match_status
    (rendered_cards (poll outs (DOMContentLoaded (Json true body) statusOut w))).
Proof.
  apply all_cards_rendered.
  apply poll_all_cards; [intros; apply buttons_match_applyStatus|by intros|].
  unfold DOMContentLoaded, updateAppList.
  rewrite (surjective_pairing (apiFetch "/apps" NoOptions (Json true body) _)).
  rewrite apiFetch_ok.
  apply updateStatus_all_cards;
    [intros; apply buttons_match_applyStatus|by intros|].
  apply all_cards_rendered.
  rewrite (proj1 (renderAppList_spec _ _)).
  apply Forall_fmap, Forall_true. intros name. by split.
Qed.

(** *** Polling the same response again *)

Lemma classList_add_idempotent c l :
  classList_add c (classList_add c l) = classList_add c l.
Proof.
  unfold classList_add. destruct (decide (c ∈ l)) as [Hin|Hout].
  - by rewrite decide_True.
  - rewrite decide_True; [done|]. set_solver.
Qed.

Lemma classList_remove_idempotent c l :
  classList_remove c (classList_remove c l) = classList_remove c l.
Proof.
  unfold classList_remove. induction l as [|x l IH]; [done|].
  destruct (decide (x = c)) as [->|Hne].
  - by rewrite !filter_cons_False by (intros ?; done).
  - rewrite !filter_cons_True by done. by rewrite IH.
Qed.

Lemma applyStatus_idempotent host a c :
  applyStatus host a (applyStatus host a c) = applyStatus host a c.
Proof.
  unfold applyStatus. destruct (truthy (running a)); simpl.
  - rewrite !classList_add_idempotent. by destruct (truthy (port a)).
  - by rewrite !classList_remove_idempotent.
Qed.

Lemma card_id_applyStatus host a c : card_id (applyStatus host a c) = card_id c.
Proof. unfold applyStatus. by destruct (truthy (running a)). Qed.

Lemma getElementById_card id w n c c' :
  getElementById id w = Some (n, c) → heap w !! n = Some (CardNode c') → c = c'.
Proof. intros (_ & Hc & _)%find_card_Some. congruence. Qed.

(** With keys of distinct sanitized identifiers, the card that a key finds
    ends up written with that key's status, applied to the card as it was
    before the loop. *)
Lemma forEach_status_written data keys w :
  wf_dom w → NoDup (sanitizeForId <$> keys) →
  (∀ k, k ∈ keys → is_Some (data_get k data)) →
  ∀ k n c a, k ∈ keys →
    getElementById (card_id_of k) w = Some (n, c) →
    data_get k data = Some a →
    heap (forEach_status data keys w).1 !! n
    = Some (CardNode (applyStatus (hostname w) a c)).
Proof.
  revert w. induction keys as [|k0 keys IH];
    intros w Hwf Hnd Hdata k n c a Hk Hfind Ha; [by apply elem_of_nil in Hk|].
  rewrite fmap_cons in Hnd. apply NoDup_cons in Hnd as [Hk0 Hnd].
  simpl.
  destruct (getElementById (card_id_of k0) w) as [[n0 c0]|] eqn:Hfind0.
  - destruct (Hdata k0) as [a0 Ha0]; [set_solver|].
    rewrite (statusEntry_found data k0 a0 w n0 c0 Hwf Ha0 Hfind0).
    set (w1 := set_heap _ w).
    assert (statusEntry data k0 w = Some w1) as Hstep
      by apply (statusEntry_found data k0 a0 w n0 c0 Hwf Ha0 Hfind0).
    pose proof (statusEntry_frame _ _ _ _ Hstep) as (Hf & _ & _ & _ & _ & Hwf1).
    specialize (Hwf1 Hwf).
    apply elem_of_cons in Hk as [->|Hk].
    + (* the key at hand: the later keys do not reach its card *)
      rewrite Hfind0 in Hfind. injection Hfind as <- <-.
      rewrite Ha0 in Ha. injection Ha as <-.
      pose proof (forEach_status_frame data keys w1) as (_ & _ & _ & _ & Hfr & _).
      rewrite Hfr; [apply lookup_insert_eq|].
      intros k' Hk' Hfind'.
      destruct (getElementById (card_id_of k') w1) as [[m ck]|] eqn:Hfk; [|done].
      injection Hfind' as ->.
      apply find_card_Some in Hfk as (_ & Hck & Hidk).
      unfold w1 in Hck. simpl in Hck. rewrite lookup_insert_eq in Hck.
      injection Hck as <-. rewrite card_id_applyStatus in Hidk.
      apply find_card_Some in Hfind0 as (_ & _ & Hid0).
      apply Hk0. apply list_elem_of_fmap. exists k'. split; [|done].
      apply card_id_of_inj_sanitize. congruence.
    + (* a later key: its card was not written by the key at hand *)
      assert (n ≠ n0) as Hne.
      { intros ->. apply find_card_Some in Hfind as (_ & Hc & Hid).
        apply find_card_Some in Hfind0 as (_ & Hc0 & Hid0).
        apply Hk0. apply list_elem_of_fmap. exists k. split; [|done].
        apply card_id_of_inj_sanitize. congruence. }
      assert (getElementById (card_id_of k) w1 = Some (n, c)) as Hfind1.
      { pose proof (getElementById_frame (card_id_of k) _ _ Hf) as Hfst.
        rewrite Hfind in Hfst. simpl in Hfst.
        destruct (getElementById (card_id_of k) w1) as [[n' c']|] eqn:Hf1;
          [|done].
        injection Hfst as ->. f_equal. f_equal.
        apply (getElementById_card _ _ _ _ _ Hf1).
        unfold w1. simpl. rewrite lookup_insert_ne by done.
        by apply find_card_Some in Hfind as (_ & Hc & _). }
      change (hostname w) with (hostname w1).
      assert (∀ k', k' ∈ keys → is_Some (data_get k' data)) as Hdata'
        by (intros ? ?; apply Hdata; set_solver).
      exact (IH w1 Hwf1 Hnd Hdata' k n c a Hk Hfind1 Ha).
  - assert (statusEntry data k0 w = Some w) as Hstep.
    { unfold statusEntry. fold (card_id_of k0). by rewrite Hfind0. }
    rewrite Hstep.
    apply elem_of_cons in Hk as [->|Hk]; [congruence|].
    assert (∀ k', k' ∈ keys → is_Some (data_get k' data)) as Hdata'
      by (intros ? ?; apply Hdata; set_solver).
    exact (IH w Hwf Hnd Hdata' k n c a Hk Hfind Ha).
Qed.

(** X11: on a well-formed list, and with a response whose keys have
    pairwise distinct sanitized identifiers, polling the same response a
    second time changes no node: class lists do not grow and links and
    texts stay as the first poll left them. *)
Theorem updateStatus_twice (body : Body StatusData) w :
  wf_dom w → NoDup (sanitizeForId <$> (payload body).*1) →
  heap (updateStatus (Json true body) (updateStatus (Json true body) w))
  = heap (updateStatus (Json true body) w).
Proof.
  intros Hwf Hnd.
  pose proof (updateStatus_frame (Json true body) w) as (Hf1 & _ & Hwf1).
  specialize (Hwf1 Hwf).
  set (w1 := updateStatus (Json true body) w) in *.
  rewrite (updateStatus_ok body w1 Hwf1).
  pose proof (apiFetch_frame "/status" NoOptions (Json true body) w1)
    as (Hf0' & Hh0' & Hwf0').
  specialize (Hwf0' Hwf1).
  set (w1' := (apiFetch "/status" NoOptions (Json true body) w1).1) in *.
  assert (∀ k, k ∈ (payload body).*1 → is_Some (data_get k (payload body)))
    as Hdata by (intros k; apply data_get_is_Some).
  apply map_eq. intros n.
  destruct (decide (Exists (λ k, fst <$> getElementById (card_id_of k) w1'
                                 = Some n) (payload body).*1))
    as [Hex|Hnone].
  - apply Exists_exists in Hex as (k & Hk & Hfind).
    destruct (getElementById (card_id_of k) w1') as [[n' c']|] eqn:Hfk; [|done].
    injection Hfind as ->.
    destruct (Hdata k Hk) as [a Ha].
    rewrite (forEach_status_written _ _ w1' Hwf0' Hnd Hdata k n c' a Hk Hfk Ha).
    (* what the first poll left on this card *)
    assert (fst <$> getElementById (card_id_of k)
                      (apiFetch "/status" NoOptions (Json true body) w).1
            = Some n) as Hfind0.
    { pose proof (apiFetch_frame "/status" NoOptions (Json true body) w)
        as (Hf0 & _).
      rewrite (getElementById_frame _ _ _ Hf0).
      rewrite <- (getElementById_frame _ _ _ Hf1).
      rewrite <- (getElementById_frame _ _ _ Hf0'). by rewrite Hfk. }
    pose proof (apiFetch_frame "/status" NoOptions (Json true body) w)
      as (Hfw & _ & Hwfw).
    specialize (Hwfw Hwf).
    destruct (getElementById (card_id_of k) _) as [[n0 c0]|] eqn:Hfk0 in Hfind0;
      [|done].
    injection Hfind0 as ->.
    pose proof (forEach_status_written _ _ _ Hwfw Hnd Hdata k n c0 a Hk Hfk0 Ha)
      as Hfirst.
    rewrite <- (updateStatus_ok body w Hwf) in Hfirst. fold w1 in Hfirst.
    assert (c' = applyStatus
                   (hostname (apiFetch "/status" NoOptions (Json true body) w).1)
                   a c0) as ->.
    { apply (getElementById_card _ _ _ _ _ Hfk). by rewrite Hh0'. }
    rewrite Hfirst. f_equal. f_equal.
    destruct Hfw as (_ & _ & _ & _ & Hhost & _).
    destruct Hf1 as (_ & _ & _ & _ & Hhost1 & _).
    destruct Hf0' as (_ & _ & _ & _ & Hhost' & _).
    rewrite Hhost', Hhost1, Hhost. apply applyStatus_idempotent.
  - pose proof (forEach_status_frame (payload body) (payload body).*1 w1')
      as (_ & _ & _ & _ & Hfr & _).
    rewrite Hfr, Hh0'; [done|].
    intros k Hk Hfind. apply Hnone. apply Exists_exists. eauto.
Qed.

Lemma updateStatus_twice_witness :
  heap (updateStatus
          (json_ok [("beta", {| running := JBool true; port := JNum 8080 |});
                    ("gamma", {| running := JBool false; port := JUndefined |})])
          (updateStatus
             (json_ok [("beta", {| running := JBool true; port := JNum 8080 |});
                       ("gamma", {| running := JBool false;
                                    port := JUndefined |})])
             three_page))
  = heap (updateStatus
            (json_ok [("beta", {| running := JBool true; port := JNum 8080 |});
                      ("gamma", {| running := JBool false;
                                   port := JUndefined |})])
            three_page).
Proof.
  apply (updateStatus_twice
           {| error := JUndefined; message := JUndefined;
              payload := [("beta", {| running := JBool true;
                                      port := JNum 8080 |});
                          ("gamma", {| running := JBool false;
                                       port := JUndefined |})] |}
           three_page); compute_done.
Defined.

(** ** The drag handlers *)

Lemma foldr_alter_elem (R : DomNode → Prop) (f : DomNode → DomNode)
    (h : gmap nat DomNode) (l : list nat) n k :
  (∀ k, R (f k)) → n ∈ l → foldr (alter f) h l !! n = Some k → R k.
Proof.
  intros Hf. revert k. induction l as [|m l IH]; intros k Hn; simpl;
    [by apply elem_of_nil in Hn|].
  rewrite lookup_alter. destruct (decide (m = n)) as [->|Hne].
  - destruct (foldr (alter f) h l !! n); simpl; [|done]. by intros [= <-].
  - apply IH. set_solver.
Qed.

Lemma not_drag_over_cleared k :
  match on_card (λ c, if decide ("drag-over" ∈ card_classes c)
                      then card_class_remove "drag-over" c else c) k with
  | CardNode c => ¬ drag_over c
  | _ => True
  end.
Proof.
  destruct k as [s|c|s]; simpl; try done. unfold drag_over.
  destruct (decide ("drag-over" ∈ card_classes c)); [|done]. simpl.
  unfold classList_remove. intros [Hne _]%list_elem_of_filter. by apply Hne.
Qed.

Lemma clear_drag_over_none w n c :
  n ∈ app_list w → card_at (clear_drag_over w) n = Some c → ¬ drag_over c.
Proof.
  intros Hn. unfold card_at, clear_drag_over. simpl.
  destruct (foldr _ _ _ !! n) as [k|] eqn:Hk; [|done].
  pose proof (foldr_alter_elem
                (λ k, match k with CardNode c => ¬ drag_over c | _ => True end)
                _ (heap w) (app_list w) n k not_drag_over_cleared Hn Hk) as HR.
  destruct k; try done. by intros [= <-].
Qed.

Lemma card_at_alter (f : Card → Card) t w n :
  card_at (set_heap (alter (on_card f) t (heap w)) w) n
  = if decide (t = n) then f <$> card_at w n else card_at w n.
Proof.
  unfold card_at. simpl. rewrite lookup_alter.
  destruct (decide (t = n)) as [->|]; [|done].
  by destruct (heap w !! n) as [[s|c|s]|].
Qed.

(** X12: after [dragover] the drop-target flag is exclusive: among the
    cards of the list, the one under the pointer carries it, unless it is
    the dragged card itself, and no other card does.  The handler neither
    reorders the list nor calls the server. *)
Theorem dragover_exclusive targetCard w :
  let w' := dragover targetCard w in
  (∀ n c, n ∈ app_list w → card_at w' n = Some c →
          (drag_over c ↔ targetCard = Some n ∧ targetCard ≠ draggedItem w))
  ∧ app_list w' = app_list w ∧ requests w' = requests w
  ∧ draggedItem w' = draggedItem w.
Proof.
  simpl. split.
  2:{ unfold dragover. destruct targetCard as [t|]; [|done].
      by destruct (decide (Some t ≠ draggedItem (clear_drag_over w))). }
  intros n c Hn. unfold dragover.
  destruct targetCard as [t|].
  2:{ intros Hc. split; [|by intros [? _]].
      intros Hd. by apply (clear_drag_over_none w n c) in Hd. }
  change (draggedItem (clear_drag_over w)) with (draggedItem w).
  destruct (decide (Some t ≠ draggedItem w)) as [Hne|Heq].
  - rewrite card_at_alter.
    destruct (decide (t = n)) as [->|Htn].
    + destruct (card_at (clear_drag_over w) n) as [c0|]; simpl; [|done].
      intros [= <-]. split; [done|]. intros _.
      unfold drag_over, card_class_add, classList_add. simpl.
      destruct (decide _); set_solver.
    + intros Hc. split; [|intros [[= ?] _]; done].
      intros Hd. by apply (clear_drag_over_none w n c) in Hd.
  - intros Hc. split; [|by intros [_ ?]].
    intros Hd. by apply (clear_drag_over_none w n c) in Hd.
Qed.

Lemma dragover_exclusive_witness :
  ∃ c, card_at (dragover (Some 11%nat) dragging_page) 11%nat = Some c
     ∧ drag_over c.
Proof.
  eexists. split; [by vm_compute|].
  apply (proj1 (dragover_exclusive (Some 11%nat) dragging_page) 11%nat).
  - compute_done.
  - by vm_compute.
  - split; [reflexivity|]. by vm_compute.
Defined.

Lemma clear_drag_over_keeps_no_dragging k :
  match k with CardNode c => "dragging" ∉ card_classes c | _ => True end →
  match on_card (λ c, if decide ("drag-over" ∈ card_classes c)
                      then card_class_remove "drag-over" c else c) k with
  | CardNode c => "dragging" ∉ card_classes c
  | _ => True
  end.
Proof.
  destruct k as [s|c|s]; simpl; try done.
  destruct (decide ("drag-over" ∈ card_classes c)); [|done]. simpl.
  unfold classList_remove. intros Hno [_ ?]%list_elem_of_filter. done.
Qed.

(** X13: [dragend] ends the drag: no dragged item is recorded any more,
    no card of the list carries the drop-target flag, and the card that
    was dragged no longer carries the dragging flag.  The order of the
    list is untouched and no call is made. *)
Theorem dragend_clears w :
  let w' := dragend w in
  draggedItem w' = None
  ∧ (∀ n c, n ∈ app_list w → card_at w' n = Some c → ¬ drag_over c)
  ∧ (∀ d c, draggedItem w = Some d → card_at w' d = Some c →
            "dragging" ∉ card_classes c)
  ∧ app_list w' = app_list w ∧ requests w' = requests w.
Proof.
  simpl. unfold dragend. split_and!.
  - done.
  - intros n c Hn Hc. eapply clear_drag_over_none; [|exact Hc].
    by destruct (draggedItem w).
  - intros d c Hd. rewrite Hd. unfold card_at, clear_drag_over. simpl.
    destruct (foldr _ _ _ !! d) as [k|] eqn:Hk; [|done].
    intros Hc. destruct k as [s|c'|s]; try done. injection Hc as ->.
    apply (foldr_alter_invariant
             (λ k, match k with
                   | CardNode c => "dragging" ∉ card_classes c
                   | _ => True
                   end) _ _ _ _ _ clear_drag_over_keeps_no_dragging)
      in Hk; [done|].
    intros k0. rewrite lookup_alter, decide_True by done.
    destruct (heap w !! d) as [[s|c0|s]|]; simpl; try done; intros [= <-];
      try done.
    simpl. unfold classList_remove. intros [Hne _]%list_elem_of_filter.
    by apply Hne.
  - by destruct (draggedItem w).
  - by destruct (draggedItem w).
Qed.

Lemma dragend_clears_witness :
  ∃ c, card_at (dragend (dragover (Some 11%nat) dragging_page)) 11%nat = Some c
     ∧ ¬ drag_over c.
Proof.
  eexists. split; [by vm_compute|].
  apply (proj1 (proj2 (dragend_clears (dragover (Some 11%nat) dragging_page)))
           11%nat).
  - compute_done.
  - by vm_compute.
Defined.

(** X14: a drop reorders nothing and calls nothing when no drag is in
    progress, when it does not land on a card, or when it lands on the
    dragged card itself; with no drag in progress the page is left exactly
    as it is. *)
Theorem drop_without_swap targetCard saveOut appsOut statusOut w :
  draggedItem w = None ∨ targetCard = None ∨ targetCard = draggedItem w →
  let w' := drop targetCard saveOut appsOut statusOut w in
  app_list w' = app_list w ∧ requests w' = requests w
  ∧ rendered_names w' = rendered_names w
  ∧ (draggedItem w = None → w' = w).
Proof.
  intros Hcase. simpl. unfold drop, drop_sync.
  destruct (draggedItem w) as [d|] eqn:Hd; [|done].
  pose proof (clear_drag_over_frame w) as (Hf & _ & _ & Hrq & _).
  pose proof (rendered_frame _ _ Hf) as (Hn & _).
  destruct Hcase as [?|[->| ->]]; [done| |].
  - split_and!; done.
  - rewrite decide_False by (intros Hne; by apply Hne).
    split_and!; done.
Qed.

Lemma drop_without_swap_witness :
  app_list (drop (Some 9%nat) (json_ok ()) (json_ok three_apps) (json_ok [])
              dragging_page)
  = app_list dragging_page.
Proof.
  apply (proj1 (drop_without_swap (Some 9%nat) (json_ok ())
                  (json_ok three_apps) (json_ok []) dragging_page
                  (or_intror (or_intror eq_refl)))).
Defined.

(** *** Dropping again *)

Lemma card_name_skeleton w w' n :
  skeleton <$> heap w' !! n = skeleton <$> heap w !! n →
  app_name <$> card_at w' n = app_name <$> card_at w n.
Proof.
  unfold card_at. intros Hs.
  destruct (heap w !! n) as [[s|c|s]|], (heap w' !! n) as [[s'|c'|s']|];
    simplify_eq/=; congruence.
Qed.

Lemma rendered_names_ext w w' :
  app_list w' = app_list w →
  (∀ n, app_name <$> card_at w' n = app_name <$> card_at w n) →
  rendered_names w' = rendered_names w.
Proof.
  intros Hl Hn. unfold rendered_names, rendered_cards. rewrite Hl. clear Hl.
  induction (app_list w) as [|n l IH]; csimpl; [done|].
  specialize (Hn n).
  destruct (card_at w' n), (card_at w n); simplify_eq/=;
    first [exact IH | f_equal; [congruence|exact IH]].
Qed.

Lemma dragend_skeleton w n :
  skeleton <$> heap (dragend w) !! n = skeleton <$> heap w !! n.
Proof.
  unfold dragend.
  pose proof (clear_drag_over_frame
                match draggedItem w with
                | Some d =>
                    set_heap (alter (on_card (card_class_remove "dragging"))
                                    d (heap w)) w
                | None => w
                end) as ((_ & _ & _ & _ & _ & Hs) & _).
  change (heap (set_draggedItem None (clear_drag_over ?x)))
    with (heap (clear_drag_over x)).
  rewrite Hs. destruct (draggedItem w) as [d|]; [|done]. simpl.
  rewrite lookup_alter. destruct (decide (d = n)) as [->|]; [|done].
  by destruct (heap w !! n) as [[s|c|s]|].
Qed.

Lemma drop_saved w dragged target body appsOut statusOut :
  wf_dom w → draggedItem w = Some dragged →
  dragged ∈ app_list w → target ∈ app_list w → target ≠ dragged →
  let w' := drop (Some target) (Json true body) appsOut statusOut w in
  app_list w' = transpose dragged target <$> app_list w
  ∧ wf_dom w'
  ∧ (∀ n, skeleton <$> heap w' !! n = skeleton <$> heap w !! n).
Proof.
  intros Hwf Hd Hdin Htin Hne. simpl.
  destruct (drop_sync_swap w dragged target Hwf Hd Hdin Htin Hne)
    as [Hsync Hwf1].
  unfold drop. rewrite Hsync. set (w1 := set_app_list _ _) in *.
  pose proof (apiFetch_frame ("/" +:+ SECRET_PATH w1 +:+ "/save-order")
                (PostOrder (rendered_names w1)) (Json true body) w1)
    as (Hf & Hh & Hwf').
  rewrite (surjective_pairing (apiFetch _ _ (Json true body) w1)).
  rewrite apiFetch_ok.
  pose proof (clear_drag_over_frame w) as ((_ & _ & _ & _ & _ & Hs) & _).
  split_and!; [apply Hf|auto|].
  intros n. rewrite Hh. apply Hs.
Qed.

(** X15: dragging the same card onto the same target a second time, both
    orders saved, puts the list back: the children and the rendered names
    are those before the first drop. *)
Theorem drop_twice_restores w dragged target body1 body2
    appsOut statusOut :
  wf_dom w → draggedItem w = Some dragged →
  dragged ∈ app_list w → target ∈ app_list w → target ≠ dragged →
  let w1 := drop (Some target) (Json true body1) appsOut statusOut w in
  let w2 := drop (Some target) (Json true body2) appsOut statusOut
                 (dragstart (Some dragged) (dragend w1)) in
  app_list w2 = app_list w
  ∧ rendered_names w2 = rendered_names w.
Proof.
  intros Hwf Hd Hdin Htin Hne. simpl.
  destruct (drop_saved w dragged target body1 appsOut statusOut
              Hwf Hd Hdin Htin Hne) as (Hl1 & Hwf1 & Hs1).
  set (w1 := drop (Some target) (Json true body1) appsOut statusOut w) in *.
  pose proof (dragend_clears w1) as (_ & _ & _ & Hle & _).
  pose proof (drag_handlers_wf w1 None Hwf1) as (_ & _ & _ & Hwfe).
  set (w1' := dragstart (Some dragged) (dragend w1)).
  assert (app_list w1' = transpose dragged target <$> app_list w) as Hl1'.
  { change (app_list w1') with (app_list (dragend w1)). by rewrite Hle. }
  assert (dragged ∈ app_list w1' ∧ target ∈ app_list w1') as [Hdin' Htin'].
  { rewrite Hl1'. split.
    - rewrite <- (transpose_r dragged target) at 1. by apply list_elem_of_fmap_2.
    - rewrite <- (transpose_l dragged target) at 1. by apply list_elem_of_fmap_2. }
  destruct (drop_saved w1' dragged target body2 appsOut statusOut)
    as (Hl2 & _ & Hs2); try done.
  assert (app_list (drop (Some target) (Json true body2) appsOut statusOut w1')
          = app_list w) as Hback.
  { rewrite Hl2, Hl1', <- list_fmap_compose.
    rewrite <- (list_fmap_id (app_list w)) at 2.
    apply list_fmap_ext. intros ? n _. apply transpose_involutive. }
  split; [done|]. apply rendered_names_ext; [done|].
  intros n. apply card_name_skeleton.
  rewrite Hs2. change (heap w1') with (heap (dragend w1)).
  by rewrite dragend_skeleton.
Qed.

Lemma drop_twice_restores_witness :
  rendered_names
    (drop (Some 13%nat) (json_ok ()) (json_ok three_apps) (json_ok [])
       (dragstart (Some 9%nat)
          (dragend (drop (Some 13%nat) (json_ok ()) (json_ok three_apps)
                      (json_ok []) dragging_page))))
  = rendered_names dragging_page.
Proof.
  apply (proj2 (drop_twice_restores dragging_page 9%nat 13%nat
           {| error := JUndefined; message := JUndefined; payload := () |}
           {| error := JUndefined; message := JUndefined; payload := () |}
           (json_ok three_apps) (json_ok [])
           ltac:(compute_done) eq_refl ltac:(compute_done)
           ltac:(compute_done) ltac:(compute_done))).
Defined.

(** *** A dragged card that left the list *)

Lemma nextSibling_detached n l : n ∉ l → nextSibling n l = None.
Proof.
  induction l as [|m l IH]; simpl; [done|]. intros Hn.
  apply not_elem_of_cons in Hn as [? ?].
  rewrite decide_False by congruence. auto.
Qed.

(** The two calls of the drop handler when the dragged node is not a
    child: it is put after the target, then the target goes last. *)
Lemma swap_detached (a c : list nat) d t :
  NoDup (a ++ t :: c) → d ∉ a ++ t :: c →
  ∃ l1, insertBefore d (nextSibling t (a ++ t :: c)) (a ++ t :: c) = Some l1
      ∧ insertBefore t (nextSibling d (a ++ t :: c)) l1
        = Some (a ++ d :: c ++ [t]).
Proof.
  intros Hnd Hd.
  assert ((t ∉ a) ∧ (t ∉ c) ∧ NoDup (a ++ c)) as (Hta & Htc & Hnd').
  { revert Hnd. rewrite !NoDup_app, NoDup_cons. set_solver. }
  assert (t ≠ d) as Htd by set_solver.
  rewrite nextSibling_middle by done. rewrite nextSibling_detached by done.
  exists (a ++ t :: d :: c). split.
  - destruct c as [|r c]; simpl.
    + rewrite remove_child_notin by done. by rewrite <- app_assoc.
    + rewrite decide_True by set_solver. rewrite decide_False by set_solver.
      rewrite remove_child_notin by done.
      replace (a ++ t :: r :: c) with ((a ++ [t]) ++ r :: c)
        by by rewrite <- app_assoc.
      rewrite insert_at_middle; [by rewrite <- app_assoc|].
      revert Hnd. rewrite !NoDup_app, !NoDup_cons. set_solver.
  - simpl. rewrite remove_child_middle; [by rewrite <- app_assoc|done|set_solver].
Qed.

(** X16: a drop of a dragged card that is no longer a child of the list
    (the list was rebuilt while it was dragged) is no exchange: the stale
    card is put back into the list at the place of the target, the target
    goes to the end, and the list is one node longer; the order sent to
    the server is read from that list. *)
Theorem drop_detached_item w dragged target (a c : list nat) :
  draggedItem w = Some dragged → app_list w = a ++ target :: c →
  NoDup (app_list w) → dragged ∉ app_list w →
  ∃ w1, drop_sync (Some target) w = (w1, Some (card_order w1))
      ∧ app_list w1 = a ++ dragged :: c ++ [target]
      ∧ length (app_list w1) = S (length (app_list w)).
Proof.
  intros Hd Hl Hnd Hout. unfold drop_sync. rewrite Hd.
  assert (target ≠ dragged) as Hne by (intros ->; apply Hout; rewrite Hl; set_solver).
  rewrite decide_True by done.
  change (app_list (clear_drag_over w)) with (app_list w).
  rewrite Hl in *.
  destruct (swap_detached a c dragged target Hnd Hout) as (l1 & -> & ->).
  eexists. split; [reflexivity|]. simpl. split; [done|].
  rewrite !length_app. simpl. rewrite length_app. simpl. lia.
Qed.

Lemma drop_detached_item_witness :
  ∃ w1, drop_sync (Some 26%nat) reloaded_while_dragging
        = (w1, Some (card_order w1))
      ∧ app_list w1 = ([23; 24; 25] ++ 9 :: [27; 28; 29] ++ [26])%nat
      ∧ length (app_list w1) = S (length (app_list reloaded_while_dragging)).
Proof.
  apply (drop_detached_item reloaded_while_dragging 9%nat 26%nat
           [23; 24; 25]%nat [27; 28; 29]%nat).
  - by vm_compute.
  - by vm_compute.
  - compute_done.
  - compute_done.
Defined.

(** ** Theme switching *)

Lemma applyTheme_spec isDark t :
  let t' := applyTheme isDark t in
  (dark t' ↔ isDark = true)
  ∧ toggle_checked t' = isDark
  ∧ label_text t' = (if isDark then dark_label else light_label)
  ∧ stored_theme t' = stored_theme t
  ∧ ∀ cls, cls ≠ "dark-mode" → (cls ∈ body_classes t' ↔ cls ∈ body_classes t).
Proof.
  unfold applyTheme, dark, classList_add, classList_remove.
  destruct isDark; simpl.
  - destruct (decide ("dark-mode" ∈ body_classes t)); split_and!; try done;
      set_solver.
  - split_and!; try done.
    + split; [|done]. intros [Hne _]%list_elem_of_filter. by destruct Hne.
    + intros cls Hcls. rewrite list_elem_of_filter. tauto.
Qed.

(** X17: a click on the theme switch flips the theme, makes the page dark
    exactly when the switch ends up checked, and stores the choice; a
    later page load with that stored choice shows the same theme, switch
    position and label, whatever the page's classes were at load and
    whatever the platform prefers. *)
Theorem theme_change_persists t fresh matchMedia :
  stored_theme fresh = stored_theme (theme_change t) →
  let t1 := theme_change t in
  let t2 := loadTheme matchMedia fresh in
  toggle_checked t1 = negb (toggle_checked t)
  ∧ (dark t1 ↔ toggle_checked t1 = true)
  ∧ stored_theme t1 = Some (if toggle_checked t1 then "dark" else "light")
  ∧ toggle_checked t2 = toggle_checked t1
  ∧ (dark t2 ↔ dark t1)
  ∧ label_text t2 = label_text t1
  ∧ stored_theme t2 = stored_theme t1.
Proof.
  intros Hstored. simpl. unfold loadTheme. rewrite Hstored.
  destruct t as [bc lt checked st]. unfold theme_change, toggleTheme. simpl.
  destruct checked; simpl.
  - pose proof (applyTheme_spec false fresh) as (Hd' & Hc' & Hlab' & Hs' & _).
    pose proof (applyTheme_spec false
                  {| body_classes := bc; label_text := lt;
                     toggle_checked := false; stored_theme := st |})
      as (Hd & _).
    unfold dark in *. simpl in *. split_and!; try done; tauto.
  - pose proof (applyTheme_spec true fresh) as (Hd' & Hc' & Hlab' & Hs' & _).
    pose proof (applyTheme_spec true
                  {| body_classes := bc; label_text := lt;
                     toggle_checked := true; stored_theme := st |})
      as (Hd & _).
    unfold dark in *. simpl in *. split_and!; try done; tauto.
Qed.

Lemma theme_change_persists_witness :
  dark (loadTheme (Some false)
          {| body_classes := []; label_text := ""; toggle_checked := false;
             stored_theme := Some "dark" |}).
Proof.
  apply (proj1 (proj2 (proj2 (proj2 (proj2 (theme_change_persists
           {| body_classes := []; label_text := ""; toggle_checked := false;
              stored_theme := None |}
           {| body_classes := []; label_text := ""; toggle_checked := false;
              stored_theme := Some "dark" |}
           (Some false) eq_refl)))))).
  unfold dark. simpl. set_solver.
Defined.

(** X18: the theme at page load.  A stored "dark" gives the dark theme;
    any other non-empty stored value gives the light one; with nothing
    stored, or the empty string, the page is dark exactly when the
    platform reports a dark preference, and light where there is no
    [matchMedia].  Loading never writes the stored value, the switch is
    checked exactly when the page is dark, and no other class of the body
    is touched. *)
Theorem loadTheme_cases matchMedia t :
  let t' := loadTheme matchMedia t in
  stored_theme t' = stored_theme t
  ∧ (toggle_checked t' = true ↔ dark t')
  ∧ (stored_theme t = Some "dark" → dark t')
  ∧ (∀ s, stored_theme t = Some s → s ≠ "" → s ≠ "dark" → ¬ dark t')
  ∧ (stored_theme t = None ∨ stored_theme t = Some "" →
     (dark t' ↔ matchMedia = Some true))
  ∧ ∀ cls, cls ≠ "dark-mode" → (cls ∈ body_classes t' ↔ cls ∈ body_classes t).
Proof.
  simpl. unfold loadTheme.
  assert (∀ b, default false matchMedia = b →
            (b = true ↔ matchMedia = Some true)) as Hmm.
  { intros b <-. destruct matchMedia as [[]|]; simpl; split; congruence. }
  destruct (stored_theme t) as [s|] eqn:Hs.
  - unfold truthy. destruct (String.eqb_spec s "") as [->|Hne]; cbn [negb].
    + pose proof (applyTheme_spec (default false matchMedia) t)
        as (Hd & Hc & _ & Hst & Hcls).
      split_and!.
      * congruence.
      * rewrite Hd. by rewrite Hc.
      * intros [= ?].
      * intros s' [= <-] Hne'. done.
      * intros _. rewrite Hd. by apply Hmm.
      * done.
    + pose proof (applyTheme_spec (String.eqb s "dark") t)
        as (Hd & Hc & _ & Hst & Hcls).
      split_and!.
      * congruence.
      * rewrite Hd. by rewrite Hc.
      * intros [= ->]. by apply Hd.
      * intros s' [= <-] _ Hnd. rewrite Hd.
        by destruct (String.eqb_spec s "dark").
      * intros [?|[= ?]]; done.
      * done.
  - pose proof (applyTheme_spec (default false matchMedia) t)
      as (Hd & Hc & _ & Hst & Hcls).
    split_and!.
    + congruence.
    + rewrite Hd. by rewrite Hc.
    + done.
    + done.
    + intros _. rewrite Hd. by apply Hmm.
    + done.
Qed.

Lemma loadTheme_cases_witness :
  dark (loadTheme (Some false)
          {| body_classes := ["page"]; label_text := "";
             toggle_checked := false; stored_theme := Some "dark" |}).
Proof.
  apply (proj1 (proj2 (proj2 (loadTheme_cases (Some false)
           {| body_classes := ["page"]; label_text := "";
              toggle_checked := false; stored_theme := Some "dark" |})))
         eq_refl).
Defined.

(** ** The start of a drag *)

(** X19: [dragstart] on a card records it as the dragged item, and the
    deferred callback then adds the dragging flag to that card and to no
    other node.  A [dragstart] that is not on a card records nothing.  If
    the drag has ended before the deferred callback runs, the callback
    raises a TypeError and marks nothing. *)
Theorem dragstart_marks_dragged t w :
  (∃ w', dragstart_deferred (dragstart (Some t) w) = Some w'
       ∧ draggedItem w' = Some t
       ∧ card_at w' t = card_class_add "dragging" <$> card_at w t
       ∧ (∀ c, card_at w' t = Some c → "dragging" ∈ card_classes c)
       ∧ (∀ n, n ≠ t → heap w' !! n = heap w !! n)
       ∧ app_list w' = app_list w)
  ∧ dragstart None w = w
  ∧ dragstart_deferred (dragend (dragstart (Some t) w)) = None.
Proof.
  split_and!; [|done|done].
  pose proof (card_at_alter (card_class_add "dragging") t
                (set_draggedItem (Some t) w) t) as Hat.
  rewrite decide_True in Hat by done.
  change (card_at (set_draggedItem (Some t) w) t) with (card_at w t) in Hat.
  exists (set_heap (alter (on_card (card_class_add "dragging")) t
                      (heap (set_draggedItem (Some t) w)))
                   (set_draggedItem (Some t) w)).
  split; [reflexivity|]. split_and!; try done.
  - intros c. rewrite Hat.
    destruct (card_at w t) as [c0|]; simpl; [|done]. intros [= <-].
    simpl. unfold classList_add.
    destruct (decide ("dragging" ∈ card_classes c0)); set_solver.
  - intros n Hn. simpl. by rewrite lookup_alter, decide_False.
Qed.

Lemma dragstart_marks_dragged_witness :
  ∃ w' c, dragstart_deferred (dragstart (Some 9%nat) running_page) = Some w'
        ∧ card_at w' 9%nat = Some c
        ∧ "dragging" ∈ card_classes c.
Proof.
  destruct (proj1 (dragstart_marks_dragged 9%nat running_page))
    as (w' & Hw' & _ & Hat & Hc & _).
  destruct (card_at w' 9%nat) as [c|] eqn:Hc9.
  - exists w', c. split; [exact Hw'|]. split; [exact Hc9|]. by apply Hc.
  - exfalso. by vm_compute in Hat.
Defined.

(** ** A reload whose status poll fails *)

Lemma updateStatus_failed_cards statusOut w :
  wf_dom w → failed statusOut = true →
  rendered_cards (updateStatus statusOut w) = set_unknown <$> rendered_cards w.
Proof.
  intros Hwf Hfail.
  pose proof (updateStatus_frame statusOut w) as ((Hl & _ & _ & _ & _ & Hs) & _).
  unfold rendered_cards. rewrite Hl. apply omap_fmap_pointwise.
  intros n Hn. destruct (card_at w n) as [c|] eqn:Hc.
  - unfold updateStatus.
    destruct (apiFetch_failed "/status" NoOptions statusOut w Hfail) as [e He].
    pose proof (apiFetch_frame "/status" NoOptions statusOut w)
      as ((Hl0 & _) & Hh & Hwf0).
    destruct (apiFetch "/status" NoOptions statusOut w) as [w0 r]; simpl in *.
    subst r. apply card_at_updateStatus_catch; [auto|congruence|].
    unfold card_at. by rewrite Hh.
  - simpl. unfold card_at in *. specialize (Hs n).
    destruct (heap w !! n) as [[s|c|s]|],
             (heap (updateStatus statusOut w) !! n) as [[s'|c'|s']|];
      simpl in *; done.
Qed.

(** X20: when the list is reloaded from an [order] of plain names and the
    status poll that follows fails, every card is exactly as
    [createAppCard] makes it (status "Unknown", link to "#", no flag on
    the buttons), whatever the cards of the previous list showed; there is
    one card for each name of [order] at which [apps] has a truthy
    entry. *)
Theorem updateAppList_resets_cards (body : Body AppsData) statusOut w :
  failed statusOut = true →
  Forall (λ name, plain_name name = true)
         (default [] (order (payload body))) →
  rendered_cards (updateAppList (Json true body) statusOut w)
  = new_card
    <$> filter (has_property (default ∅ (apps (payload body))))
               (default [] (order (payload body))).
Proof.
  intros Hfail _. unfold updateAppList.
  rewrite (surjective_pairing (apiFetch "/apps" NoOptions (Json true body) w)).
  rewrite apiFetch_ok.
  set (w0 := (apiFetch "/apps" NoOptions (Json true body) w).1).
  pose proof (renderAppList_spec (payload body) w0) as (Hc & _ & Hwf & _).
  rewrite (updateStatus_failed_cards _ _ Hwf Hfail), Hc.
  rewrite <- list_fmap_compose. by apply list_fmap_ext.
Qed.

Lemma updateAppList_resets_cards_witness :
  rendered_cards (updateAppList (json_ok three_apps) (NetworkFailure "offline")
                    running_page)
  = new_card <$> ["alpha"; "beta"; "gamma"].
Proof.
  etrans.
  - apply (updateAppList_resets_cards
             {| error := JUndefined; message := JUndefined;
                payload := three_apps |}
             (NetworkFailure "offline") running_page eq_refl
             ltac:(compute_done)).
  - by vm_compute.
Defined.

(** ** Leaving a drop target *)

(** X21: when the pointer enters a card and leaves it again ([dragover]
    then [dragleave] on the same card), no card of the list is left with
    the drop-target flag, and the list is in the same order. *)
Theorem dragleave_after_dragover t w :
  let w' := dragleave (Some t) (dragover (Some t) w) in
  (∀ n c, n ∈ app_list w → card_at w' n = Some c → ¬ drag_over c)
  ∧ app_list w' = app_list w ∧ requests w' = requests w.
Proof.
  cbv zeta. split.
  2:{ unfold dragleave, dragover. by destruct (decide _). }
  intros n c Hn. unfold dragleave. rewrite card_at_alter.
  destruct (decide (t = n)) as [->|Hne].
  - destruct (card_at (dragover (Some n) w) n) as [c0|]; simpl; [|done].
    intros [= <-]. unfold drag_over. simpl. unfold classList_remove.
    intros [Hno _]%list_elem_of_filter. by apply Hno.
  - unfold dragover. destruct (decide _).
    + rewrite card_at_alter, decide_False by done.
      by apply clear_drag_over_none.
    + by apply clear_drag_over_none.
Qed.

Lemma dragleave_after_dragover_witness :
  ∃ c, card_at (dragleave (Some 11%nat) (dragover (Some 11%nat) dragging_page))
               11%nat = Some c
     ∧ ¬ drag_over c.
Proof.
  eexists. split; [by vm_compute|].
  apply (proj1 (dragleave_after_dragover 11%nat dragging_page) 11%nat).
  - compute_done.
  - by vm_compute.
Defined.
